(** * textengine: the dialog-tree engine of [engine.hpp]

    A shallow embedding of namespace [textengine]: the [console] logging
    service, the [Decision] / [Dialog] / [Tree] containers and the marker
    scanner [Parser::parseMarkerValue] / [Parser::parseLine].

    Conventions of the embedding.
    - [std::string] is [string]; [char] is [ascii]; [int] is [Z] (no
      arithmetic is performed on it by the modelled code, only comparisons
      and assignments); [std::map<std::string, V>] is [gmap string V].
    - A [std::string::const_iterator] into a line is the index of the
      character it designates; [line.end()] is [String.length line].
    - Code runs in a state-and-exception monad over a [world]: the static
      members of [console] together with the object the code works on.
      Besides returning, a computation can throw [textengine::exception],
      or leave the behaviour defined by C++ (an iterator dereferenced
      outside the line or advanced past [end()]). *)

From Stdlib Require Import ZArith Lia Ascii.
From stdpp Require Import gmap strings.

Local Open Scope Z_scope.

(** ** Outcomes and the monad *)

(** The two ways the code can leave defined behaviour. *)
Inductive ub : Type :=
| DerefPastTheEnd    (* [*it] / [it->second] with [it] at or past [end()] *)
| AdvancePastEnd.    (* [++it] / [it++] with [it == end()] *)

Inductive result (A : Type) : Type :=
| Ret (a : A)               (* normal return *)
| Throw (what : string)     (* [throw exception(what)] *)
| Undefined (u : ub)        (* undefined behaviour *)
| OutOfFuel.                (* the model's loop bound was too small *)

Arguments Ret {A} a.
Arguments Throw {A} what.
Arguments Undefined {A} u.
Arguments OutOfFuel {A}.

Definition nl : string := String (Ascii.ascii_of_nat 10) EmptyString.

(** [class console]: its static members and the text written to [std::cout]. *)
Module console_state.
Record t : Type := mk {
  indent_ : string;
  level_ : Z;
  cout : string
}.

(** The static initialisation at the end of the header. *)
Definition initial : t := mk "  " 1 "".
End console_state.

Record world (S : Type) : Type := World {
  con : console_state.t;
  obj : S
}.

Arguments World {S} con obj.
Arguments con {S} w.
Arguments obj {S} w.

Definition M (S A : Type) : Type := world S -> result A * world S.

Definition ret {S A : Type} (a : A) : M S A := fun w => (Ret a, w).

Definition bind {S A B : Type} (m : M S A) (k : A -> M S B) : M S B :=
  fun w =>
    match m w with
    | (Ret a, w') => k a w'
    | (Throw e, w') => (Throw e, w')
    | (Undefined u, w') => (Undefined u, w')
    | (OutOfFuel, w') => (OutOfFuel, w')
    end.

Notation "'let*' x ':=' m 'in' k" := (bind m (fun x => k))
  (at level 10, x name, m at level 200, k at level 200, only parsing).

Definition throw {S A : Type} (what : string) : M S A := fun w => (Throw what, w).
Definition undefined {S A : Type} (u : ub) : M S A := fun w => (Undefined u, w).
Definition out_of_fuel {S A : Type} : M S A := fun w => (OutOfFuel, w).

Definition get_obj {S : Type} : M S S := fun w => (Ret (obj w), w).
Definition put_obj {S : Type} (s : S) : M S unit := fun w => (Ret tt, World (con w) s).
Definition modify_obj {S : Type} (f : S -> S) : M S unit :=
  fun w => (Ret tt, World (con w) (f (obj w))).

(** Run [m] on a sub-object [s] reached through a reference, and write the
    sub-object back with [store] whatever the outcome: the reference
    designates the stored object itself, so its mutations are in place. *)
Definition through {S T A : Type} (s : T) (store : T -> S -> S) (m : M T A) : M S A :=
  fun w =>
    let '(r, w') := m (World (con w) s) in
    (r, World (con w') (store (obj w') (obj w))).

(** ** [struct configure] *)
Module configure.
Record t : Type := mk {
  output_indent : string;
  log_level : Z;
  trim_whitespaces_behind_markers : bool;
  display_disabled_decisions : bool
}.

(** The default member initialisers. *)
Definition default : t := mk "  " 1 true true.
End configure.

(** ** [class console] *)
Module console.
Import console_state.

Definition indent {S : Type} (_indent : string) : M S unit :=
  fun w => (Ret tt, World (mk _indent (level_ (con w)) (cout (con w))) (obj w)).

Definition logLevel {S : Type} (_level : Z) : M S unit :=
  fun w => (Ret tt, World (mk (indent_ (con w)) _level (cout (con w))) (obj w)).

(** What [out(arg, args...)] sends to [std::cout]: the first argument, each
    further one on a new line behind the indentation, then [std::endl]. *)
Definition rendered (ind arg : string) (args : list string) : string :=
  arg +:+ foldr (fun a acc => nl +:+ ind +:+ a +:+ acc) "" args +:+ nl.

Definition out {S : Type} (arg : string) (args : list string) : M S unit :=
  fun w =>
    let c := con w in
    (Ret tt,
     World (mk (indent_ c) (level_ c) (cout c +:+ rendered (indent_ c) arg args)) (obj w)).

Definition log {S : Type} (level : Z) (arg : string) (args : list string) : M S unit :=
  fun w =>
    if level =? 1 then throw arg w
    else if (level <? 1) || (level >? level_ (con w)) then ret tt w
    else out arg args w.
End console.

(** ** [std::map] operations used by the containers *)

(** [m.insert({k, v})]: the map afterwards and the [.second] of the returned
    pair, [false] when the key was already present (nothing is stored). *)
Definition std_map_insert {V : Type} (k : string) (v : V) (m : gmap string V)
  : gmap string V * bool :=
  match m !! k with
  | Some _ => (m, false)
  | None => (<[k := v]> m, true)
  end.

(** [m.find(k)]: [None] stands for [m.end()]. *)
Definition std_map_find {V : Type} (k : string) (m : gmap string V) : option V := m !! k.

(** [it->second] for the iterator returned by [find]; dereferencing [end()]
    is undefined. *)
Definition std_map_second {S V : Type} (it : option V) : M S V :=
  match it with
  | Some v => ret v
  | None => undefined DerefPastTheEnd
  end.

(** ** [class Decision] *)
Module Decision.
Record t : Type := mk {
  id_ : string;
  message_ : string;
  link_ : string;
  enabled_ : bool;
  score_ : Z
}.

Definition Decision (_id _message _link : string) (_enabled : bool) (_score : Z) : t :=
  mk _id _message _link _enabled _score.

Definition set_message (_message : string) : M t unit :=
  modify_obj (fun d => mk (id_ d) _message (link_ d) (enabled_ d) (score_ d)).
Definition set_link (_link : string) : M t unit :=
  modify_obj (fun d => mk (id_ d) (message_ d) _link (enabled_ d) (score_ d)).
Definition set_enabled (_enable : bool) : M t unit :=
  modify_obj (fun d => mk (id_ d) (message_ d) (link_ d) _enable (score_ d)).
Definition set_score (_score : Z) : M t unit :=
  modify_obj (fun d => mk (id_ d) (message_ d) (link_ d) (enabled_ d) _score).

(** The public mutators of a Decision. *)
Inductive op : Type :=
| Message (_message : string)
| Link (_link : string)
| Enabled (_enable : bool)
| Score (_score : Z).

Definition run (o : op) : M t unit :=
  match o with
  | Message m => set_message m
  | Link l => set_link l
  | Enabled e => set_enabled e
  | Score s => set_score s
  end.
End Decision.

(** ** [class Dialog] *)
Module Dialog.
Record t : Type := mk {
  decisions_ : gmap string Decision.t;
  id_ : string;
  message_ : string;
  link_ : string
}.

Definition Dialog (_id _message _link : string) : t := mk ∅ _id _message _link.

Definition with_decisions (ds : gmap string Decision.t) (d : t) : t :=
  mk ds (id_ d) (message_ d) (link_ d).

Definition set_message (_message : string) : M t unit :=
  modify_obj (fun d => mk (decisions_ d) (id_ d) _message (link_ d)).
Definition set_link (_link : string) : M t unit :=
  modify_obj (fun d => mk (decisions_ d) (id_ d) (message_ d) _link).

Definition allDecisions : M t (gmap string Decision.t) :=
  let* d := get_obj in ret (decisions_ d).

(** [decisions_.insert({k, v}).second] *)
Definition decisions_insert (k : string) (v : Decision.t) : M t bool :=
  let* d := get_obj in
  let '(ds, second) := std_map_insert k v (decisions_ d) in
  let* _ := put_obj (with_decisions ds d) in
  ret second.

(** [insertDecision(const Decision &)] *)
Definition insertDecision (_decision : Decision.t) : M t unit :=
  let* second := decisions_insert (Decision.id_ _decision) _decision in
  if negb second
  then console.log 1 ("duplicate decision id: " +:+ Decision.id_ _decision) []
  else ret tt.

(** [insertDecision(_id, _message, _link, _enabled, _score)] *)
Definition insertDecision_fields (_id _message _link : string) (_enabled : bool) (_score : Z)
  : M t unit :=
  let* second := decisions_insert _id (Decision.Decision _id _message _link _enabled _score) in
  if negb second
  then console.log 1 ("duplicate decision id: " +:+ _id) []
  else ret tt.

(** [decision(_id)]: the Decision the returned reference designates. *)
Definition decision (_id : string) : M t Decision.t :=
  let* d := get_obj in
  let it := std_map_find _id (decisions_ d) in
  let* _ := (if it is None
        then console.log 1 ("cannot find decision with id: " +:+ _id) []
        else ret tt) in
  std_map_second it.

(** [decision(_id).m(...)]: a member call through the returned reference. *)
Definition on_decision {A : Type} (_id : string) (m : M Decision.t A) : M t A :=
  let* dec := decision _id in
  through dec (fun dec' d => with_decisions (<[_id := dec']> (decisions_ d)) d) m.

(** The public mutators of a Dialog. *)
Inductive op : Type :=
| Message (_message : string)
| Link (_link : string)
| InsertDecision (_decision : Decision.t)
| InsertDecisionFields (_id _message _link : string) (_enabled : bool) (_score : Z)
| OnDecision (_id : string) (o : Decision.op).

Definition run (o : op) : M t unit :=
  match o with
  | Message m => set_message m
  | Link l => set_link l
  | InsertDecision dec => insertDecision dec
  | InsertDecisionFields i m l e s => insertDecision_fields i m l e s
  | OnDecision i o' => on_decision i (Decision.run o')
  end.

(** The Dialogs a client can hold: built by the constructor and changed by
    the public mutators only, whether a call returns or throws. (The const
    member [id_] deletes the copy assignment, so a stored Dialog or Decision
    cannot be overwritten through a reference either.) *)
Inductive reachable : t -> Prop :=
| reach_new _id _message _link : reachable (Dialog _id _message _link)
| reach_run c d o r w' :
    reachable d -> run o (World c d) = (r, w') -> reachable (obj w').

(** Every key of [decisions_] maps to a Decision carrying that id. *)
Definition keyed_by_id (d : t) : Prop :=
  forall k dec, decisions_ d !! k = Some dec -> Decision.id_ dec = k.
End Dialog.

(** ** [class Tree] *)
Module Tree.
Record t : Type := mk {
  dialogs_ : gmap string Dialog.t;
  root_ : string;
  id_ : string;
  score_ : Z
}.

(** [Tree(_root, _initial_score)]; [id_] is left default-constructed. *)
Definition Tree (_root : string) (_initial_score : Z) : t := mk ∅ _root "" _initial_score.

Definition with_dialogs (ds : gmap string Dialog.t) (t0 : t) : t :=
  mk ds (root_ t0) (id_ t0) (score_ t0).

Definition set_score (_value : Z) : M t unit :=
  modify_obj (fun t0 => mk (dialogs_ t0) (root_ t0) (id_ t0) _value).

(** [dialogs_.insert({k, v}).second] *)
Definition dialogs_insert (k : string) (v : Dialog.t) : M t bool :=
  let* t0 := get_obj in
  let '(ds, second) := std_map_insert k v (dialogs_ t0) in
  let* _ := put_obj (with_dialogs ds t0) in
  ret second.

(** [insertDialog(const Dialog &)] *)
Definition insertDialog (_dialog : Dialog.t) : M t unit :=
  let* second := dialogs_insert (Dialog.id_ _dialog) _dialog in
  if negb second
  then console.log 1 ("duplicate dialog id: " +:+ Dialog.id_ _dialog) []
  else ret tt.

(** [insertDialog(_id, _message, _link)] *)
Definition insertDialog_fields (_id _message _link : string) : M t unit :=
  let* second := dialogs_insert _id (Dialog.Dialog _id _message _link) in
  if negb second
  then console.log 1 ("duplicate dialog id: " +:+ _id) []
  else ret tt.

(** [dialog(_id)]: the Dialog the returned reference designates. *)
Definition dialog (_id : string) : M t Dialog.t :=
  let* t0 := get_obj in
  let it := std_map_find _id (dialogs_ t0) in
  let* _ := (if it is None
        then console.log 1 ("cannot find dialog with id: " +:+ _id) []
        else ret tt) in
  std_map_second it.

(** [dialog(_id).m(...)]: a member call through the returned reference. *)
Definition on_dialog {A : Type} (_id : string) (m : M Dialog.t A) : M t A :=
  let* d := dialog _id in
  through d (fun d' t0 => with_dialogs (<[_id := d']> (dialogs_ t0)) t0) m.

(** The public mutators of a Tree. [InsertDialog] copies a Dialog the
    client holds, hence a reachable one. *)
Inductive op : Type :=
| Score (_value : Z)
| InsertDialog (_dialog : Dialog.t)
| InsertDialogFields (_id _message _link : string)
| OnDialog (_id : string) (o : Dialog.op).

Definition run (o : op) : M t unit :=
  match o with
  | Score v => set_score v
  | InsertDialog d => insertDialog d
  | InsertDialogFields i m l => insertDialog_fields i m l
  | OnDialog i o' => on_dialog i (Dialog.run o')
  end.

Definition admissible (o : op) : Prop :=
  match o with
  | InsertDialog d => Dialog.reachable d
  | _ => True
  end.

Inductive reachable : t -> Prop :=
| reach_new _root _initial_score : reachable (Tree _root _initial_score)
| reach_run c t0 o r w' :
    reachable t0 -> admissible o -> run o (World c t0) = (r, w') -> reachable (obj w').

(** Every key of [dialogs_] maps to a Dialog carrying that id, whose own
    [decisions_] are keyed the same way. *)
Definition keyed_by_id (t0 : t) : Prop :=
  forall k d, dialogs_ t0 !! k = Some d -> Dialog.id_ d = k /\ Dialog.keyed_by_id d.
End Tree.

(** ** [class Parser] *)

(** [struct Parser::Token] *)
Module Token.
Record t : Type := mk {
  text : string;
  id : string;
  link : string;
  isTreeLink : bool;
  hasId : bool;
  hasLink : bool
}.

(** A default-initialised Token. *)
Definition fresh : t := mk "" "" "" false false false.
End Token.

Module Parser.
(** What [parseLine] works on through its reference parameters: the line
    iterator [it] and the token [curr]. *)
Record state : Type := mk {
  it : nat;
  curr : Token.t
}.

Definition push_back (s : string) (c : ascii) : string := s +:+ String c "".

Section Line.
Variable config : configure.t.
Variable line : string.

(** [it == line.end()] *)
Definition at_end : M state bool :=
  fun w => (Ret (it (obj w) =? String.length line)%nat, w).

(** [*it] *)
Definition deref : M state ascii :=
  fun w =>
    match String.get (it (obj w)) line with
    | Some c => ret c w
    | None => undefined DerefPastTheEnd w
    end.

(** [++it] and [it++] (the value of the expression is never used) *)
Definition advance : M state unit :=
  fun w =>
    if (it (obj w) <? String.length line)%nat
    then (Ret tt, World (con w) (mk (S (it (obj w))) (curr (obj w))))
    else undefined AdvancePastEnd w.

Definition modify_curr (f : Token.t -> Token.t) : M state unit :=
  modify_obj (fun s => mk (it s) (f (curr s))).

(** [while (++it != line.end() && *it != ']') marker.push_back( *it);] *)
Fixpoint marker_loop (fuel : nat) (marker : string) : M state string :=
  match fuel with
  | O => out_of_fuel
  | S fuel' =>
      let* _ := advance in
      let* e := at_end in
      if e then ret marker
      else
        let* c := deref in
        if Ascii.eqb c "]"%char then ret marker
        else marker_loop fuel' (push_back marker c)
  end.

(** [while (++it != line.end() && *it == ' ');] *)
Fixpoint trim_loop (fuel : nat) : M state unit :=
  match fuel with
  | O => out_of_fuel
  | S fuel' =>
      let* _ := advance in
      let* e := at_end in
      if e then ret tt
      else
        let* c := deref in
        if Ascii.eqb c " "%char then trim_loop fuel' else ret tt
  end.

(** Either loop advances [it] once per iteration and stops at
    [line.end()] at the latest, so [String.length line] iterations
    bound it. *)
Definition parseMarkerValue : M state string :=
  let* marker := marker_loop (S (String.length line)) "" in
  let* _ := (if configure.trim_whitespaces_behind_markers config
             then trim_loop (S (String.length line))
             else ret tt) in
  ret marker.

(** [(curr.hasId = !curr.hasId)] *)
Definition flip_hasId : M state bool :=
  let* s := get_obj in
  let b := negb (Token.hasId (curr s)) in
  let* _ := modify_curr (fun t =>
    Token.mk (Token.text t) (Token.id t) (Token.link t) (Token.isTreeLink t)
             b (Token.hasLink t)) in
  ret b.

(** [(curr.hasLink = !curr.hasLink)] *)
Definition flip_hasLink : M state bool :=
  let* s := get_obj in
  let b := negb (Token.hasLink (curr s)) in
  let* _ := modify_curr (fun t =>
    Token.mk (Token.text t) (Token.id t) (Token.link t) (Token.isTreeLink t)
             (Token.hasId t) b) in
  ret b.

Definition set_id (v : string) : M state unit :=
  modify_curr (fun t =>
    Token.mk (Token.text t) v (Token.link t) (Token.isTreeLink t)
             (Token.hasId t) (Token.hasLink t)).

Definition set_link (v : string) : M state unit :=
  modify_curr (fun t =>
    Token.mk (Token.text t) (Token.id t) v (Token.isTreeLink t)
             (Token.hasId t) (Token.hasLink t)).

Definition set_isTreeLink (v : bool) : M state unit :=
  modify_curr (fun t =>
    Token.mk (Token.text t) (Token.id t) (Token.link t) v
             (Token.hasId t) (Token.hasLink t)).

(** [curr.text.append(s)] *)
Definition text_append (s : string) : M state unit :=
  modify_curr (fun t =>
    Token.mk (Token.text t +:+ s) (Token.id t) (Token.link t) (Token.isTreeLink t)
             (Token.hasId t) (Token.hasLink t)).

Definition is_link_letter (c : ascii) : bool :=
  Ascii.eqb c "T"%char || Ascii.eqb c "t"%char || Ascii.eqb c "D"%char || Ascii.eqb c "d"%char.

(** The statements of one iteration of the [while] of [parseLine], the
    closing [it++] included. *)
Definition parseLine_body : M state unit :=
  let* c := deref in
  let* _ :=
    (if Ascii.eqb c "$"%char then
       let* _ := advance in
       let* c1 := deref in
       if Ascii.eqb c1 "["%char then
         let* id := parseMarkerValue in
         let* fresh_id := flip_hasId in
         if fresh_id then set_id id
         else console.log 1 ("found another id within token: " +:+ id) []
       else if is_link_letter c1 then
         let linkType := c1 in
         let* _ := advance in
         let* c2 := deref in
         if Ascii.eqb c2 "["%char then
           let* link := parseMarkerValue in
           let* fresh_link := flip_hasLink in
           let* _ := (if fresh_link then set_link link
                      else console.log 1 ("found another link within token: " +:+ link) []) in
           if Ascii.eqb linkType "T"%char || Ascii.eqb linkType "t"%char
           then set_isTreeLink true
           else set_isTreeLink false
         else text_append (String "$"%char (String linkType (String c2 "")))
       else text_append (String "$"%char (String c1 ""))
     else text_append (String c "")) in
  advance.

(** [while (it != line.end()) { ... }] *)
Fixpoint parseLine_loop (fuel : nat) : M state unit :=
  match fuel with
  | O => out_of_fuel
  | S fuel' =>
      let* e := at_end in
      if e then ret tt
      else
        let* _ := parseLine_body in
        parseLine_loop fuel'
  end.

(** [parseLine(config, curr, line, it)]: every iteration advances [it],
    so [String.length line] iterations and the final test bound the
    loop. *)
Definition parseLine : M state Token.t :=
  let* _ := parseLine_loop (S (String.length line)) in
  let* s := get_obj in
  ret (curr s).
End Line.

(** Scanning a line from its first character into a fresh token, under
    the console's initial state. *)
Definition scan (config : configure.t) (line : string) : result Token.t * world state :=
  parseLine config line (World console_state.initial (mk 0 Token.fresh)).
End Parser.

(** ** Concrete scripts and containers *)
Module Scenario.
Definition trim_on : configure.t := configure.default.
Definition trim_off : configure.t := configure.mk "  " 1 false true.

Definition first_D1 : Dialog.t := Dialog.Dialog "D1" "first" "".
Definition second_D1 : Dialog.t := Dialog.Dialog "D1" "second" "D2".

(** A fresh Tree into which [first_D1] has been inserted. *)
Definition tree_D1 : Tree.t :=
  obj (snd (Tree.insertDialog first_D1
              (World console_state.initial (Tree.Tree "D1" 0)))).

Definition first_c1 : Decision.t := Decision.Decision "c1" "go left" "D2" true 0.
Definition second_c1 : Decision.t := Decision.Decision "c1" "go right" "" false 5.

(** A fresh Dialog into which [first_c1] has been inserted. *)
Definition dialog_c1 : Dialog.t :=
  obj (snd (Dialog.insertDecision first_c1 (World console_state.initial first_D1))).

(** A Tree grown by a sequence of calls, two of which throw. *)
Definition script : list Tree.op :=
  [ Tree.InsertDialog dialog_c1;
    Tree.InsertDialogFields "D2" "the end" "";
    Tree.InsertDialog second_D1;
    Tree.OnDialog "D2" (Dialog.InsertDecisionFields "back" "return" "D1" true 1);
    Tree.OnDialog "D1" (Dialog.OnDecision "c1" (Decision.Score 7));
    Tree.OnDialog "D3" (Dialog.Message "nowhere") ].

Definition run_script (ops : list Tree.op) (t0 : Tree.t) : Tree.t :=
  foldl (fun t1 o => obj (snd (Tree.run o (World console_state.initial t1)))) t0 ops.

Definition grown_tree : Tree.t := run_script script (Tree.Tree "D1" 0).
End Scenario.

(** *** A partial-correctness-with-termination judgement

    [safe m w Q]: run from [w], [m] does not exhaust the loop bound, and if
    it returns [a] in world [w'] then [Q a w']. Throwing and undefined
    behaviour are allowed. *)
Definition safe {S A : Type} (m : M S A) (w : world S) (Q : A -> world S -> Prop) : Prop :=
  match m w with
  | (Ret a, w') => Q a w'
  | (OutOfFuel, _) => False
  | _ => True
  end.

(** ** [Tree::incrementScore] and [Tree::score]

    The only arithmetic of the header. [int] is taken to be the 32-bit
    two's-complement type of the mainstream ABIs; an addition whose result
    does not fit is a signed overflow, which C++ leaves undefined: [None]. *)
Definition int_min : Z := -2147483648.
Definition int_max : Z := 2147483647.
Definition in_int (z : Z) : bool := (int_min <=? z) && (z <=? int_max).

(** [score_ += _value] *)
Definition incrementScore (_value : Z) (t0 : Tree.t) : option Tree.t :=
  if in_int (Tree.score_ t0 + _value)
  then Some (Tree.mk (Tree.dialogs_ t0) (Tree.root_ t0) (Tree.id_ t0)
               (Tree.score_ t0 + _value))
  else None.

(** [score()] *)
Definition score : M Tree.t Z := let* t0 := get_obj in ret (Tree.score_ t0).

(** *** What a scan may change, whatever its outcome

    [extends w w']: from [w] to [w'] the console is untouched, the iterator
    has not moved left, and the token's text has only grown at its end. *)
Definition extends (w w' : world Parser.state) : Prop :=
  con w' = con w
  /\ (Parser.it (obj w) <= Parser.it (obj w'))%nat
  /\ exists s, Token.text (Parser.curr (obj w'))
               = Token.text (Parser.curr (obj w)) +:+ s.

(** [m] only ever extends the world it is run in, also when it throws or
    leaves defined behaviour. *)
Definition extending {A : Type} (m : M Parser.state A) : Prop :=
  forall w, extends w (snd (m w)).

(** * Properties *)

(** ** The logging service *)

Lemma rendered_nonempty ind arg args : console.rendered ind arg args <> "".
Proof.
  unfold console.rendered.
  generalize (foldr (fun a acc => nl +:+ ind +:+ a +:+ acc) "" args).
  intros tl. destruct arg; simpl; [destruct tl|]; discriminate.
Qed.

Lemma string_app_length (a b : string) :
  String.length (a +:+ b) = (String.length a + String.length b)%nat.
Proof. induction a as [|c a IH]; [reflexivity|]. simpl. by rewrite IH. Qed.

Lemma out_writes {S : Type} arg args (w : world S) :
  fst (console.out arg args w) = Ret tt
  /\ obj (snd (console.out arg args w)) = obj w
  /\ console_state.cout (con (snd (console.out arg args w)))
     = console_state.cout (con w)
       +:+ console.rendered (console_state.indent_ (con w)) arg args
  /\ console_state.cout (con (snd (console.out arg args w)))
     <> console_state.cout (con w).
Proof.
  unfold console.out; simpl. repeat split. intros E.
  apply (f_equal String.length) in E. rewrite string_app_length in E.
  pose proof (rendered_nonempty (console_state.indent_ (con w)) arg args) as N.
  destruct (console.rendered (console_state.indent_ (con w)) arg args); [congruence|].
  simpl in E. lia.
Qed.

(** C6. Whatever the message and the configured level: severity 1 throws an
    exception carrying the message and changes nothing; severities 2 and 3
    return normally, after the call of [out] exactly when the configured
    level is at least the severity (so severity 3 writes only from level 3
    on) and without writing otherwise; severity 0 returns normally and writes
    nothing. *)
Theorem log_severity_policy {S : Type} (msg : string) (args : list string) (w : world S) :
  console.log 1 msg args w = (Throw msg, w)
  /\ fst (console.log 2 msg args w) = Ret tt
  /\ fst (console.log 3 msg args w) = Ret tt
  /\ console.log 2 msg args w
     = (if 2 <=? console_state.level_ (con w) then console.out msg args w else (Ret tt, w))
  /\ console.log 3 msg args w
     = (if 3 <=? console_state.level_ (con w) then console.out msg args w else (Ret tt, w))
  /\ console.log 0 msg args w = (Ret tt, w).
Proof.
  unfold console.log, throw, ret; simpl.
  destruct (Z.gtb_spec 2 (console_state.level_ (con w)));
    destruct (Z.leb_spec 2 (console_state.level_ (con w))); try lia;
    destruct (Z.gtb_spec 3 (console_state.level_ (con w)));
    destruct (Z.leb_spec 3 (console_state.level_ (con w))); try lia;
    repeat split.
Qed.

(** ** The containers *)

Ltac unfold_m :=
  unfold bind, ret, throw, undefined, get_obj, put_obj, modify_obj, through,
    console.log, std_map_insert, std_map_find, std_map_second in *;
  simpl in *.

Lemma Tree_with_dialogs_same t : Tree.with_dialogs (Tree.dialogs_ t) t = t.
Proof. by destruct t. Qed.

Lemma Dialog_with_decisions_same d : Dialog.with_decisions (Dialog.decisions_ d) d = d.
Proof. by destruct d. Qed.

Lemma dialogs_insert_taken c t k v d0 :
  Tree.dialogs_ t !! k = Some d0 ->
  Tree.dialogs_insert k v (World c t) = (Ret false, World c t).
Proof.
  intros H. unfold Tree.dialogs_insert. unfold_m. rewrite H. simpl.
  by rewrite Tree_with_dialogs_same.
Qed.

Lemma dialogs_insert_free c t k v :
  Tree.dialogs_ t !! k = None ->
  Tree.dialogs_insert k v (World c t)
  = (Ret true, World c (Tree.with_dialogs (<[k := v]> (Tree.dialogs_ t)) t)).
Proof. intros H. unfold Tree.dialogs_insert. unfold_m. by rewrite H. Qed.

Lemma decisions_insert_taken c d k v dec0 :
  Dialog.decisions_ d !! k = Some dec0 ->
  Dialog.decisions_insert k v (World c d) = (Ret false, World c d).
Proof.
  intros H. unfold Dialog.decisions_insert. unfold_m. rewrite H. simpl.
  by rewrite Dialog_with_decisions_same.
Qed.

Lemma decisions_insert_free c d k v :
  Dialog.decisions_ d !! k = None ->
  Dialog.decisions_insert k v (World c d)
  = (Ret true, World c (Dialog.with_decisions (<[k := v]> (Dialog.decisions_ d)) d)).
Proof. intros H. unfold Dialog.decisions_insert. unfold_m. by rewrite H. Qed.

Lemma insertDialog_taken c t d d0 :
  Tree.dialogs_ t !! Dialog.id_ d = Some d0 ->
  Tree.insertDialog d (World c t)
  = (Throw ("duplicate dialog id: " +:+ Dialog.id_ d), World c t).
Proof.
  intros H. unfold Tree.insertDialog, bind.
  by rewrite (dialogs_insert_taken _ _ _ _ _ H).
Qed.

Lemma insertDialog_free c t d :
  Tree.dialogs_ t !! Dialog.id_ d = None ->
  Tree.insertDialog d (World c t)
  = (Ret tt, World c (Tree.with_dialogs (<[Dialog.id_ d := d]> (Tree.dialogs_ t)) t)).
Proof.
  intros H. unfold Tree.insertDialog, bind.
  by rewrite (dialogs_insert_free _ _ _ _ H).
Qed.

Lemma insertDialog_fields_taken c t i m l d0 :
  Tree.dialogs_ t !! i = Some d0 ->
  Tree.insertDialog_fields i m l (World c t)
  = (Throw ("duplicate dialog id: " +:+ i), World c t).
Proof.
  intros H. unfold Tree.insertDialog_fields, bind.
  by rewrite (dialogs_insert_taken _ _ _ _ _ H).
Qed.

Lemma insertDialog_fields_free c t i m l :
  Tree.dialogs_ t !! i = None ->
  Tree.insertDialog_fields i m l (World c t)
  = (Ret tt, World c (Tree.with_dialogs (<[i := Dialog.Dialog i m l]> (Tree.dialogs_ t)) t)).
Proof.
  intros H. unfold Tree.insertDialog_fields, bind.
  by rewrite (dialogs_insert_free _ _ _ _ H).
Qed.

Lemma insertDecision_taken c d dec dec0 :
  Dialog.decisions_ d !! Decision.id_ dec = Some dec0 ->
  Dialog.insertDecision dec (World c d)
  = (Throw ("duplicate decision id: " +:+ Decision.id_ dec), World c d).
Proof.
  intros H. unfold Dialog.insertDecision, bind.
  by rewrite (decisions_insert_taken _ _ _ _ _ H).
Qed.

Lemma insertDecision_free c d dec :
  Dialog.decisions_ d !! Decision.id_ dec = None ->
  Dialog.insertDecision dec (World c d)
  = (Ret tt,
     World c (Dialog.with_decisions (<[Decision.id_ dec := dec]> (Dialog.decisions_ d)) d)).
Proof.
  intros H. unfold Dialog.insertDecision, bind.
  by rewrite (decisions_insert_free _ _ _ _ H).
Qed.

Lemma insertDecision_fields_taken c d i m l e s dec0 :
  Dialog.decisions_ d !! i = Some dec0 ->
  Dialog.insertDecision_fields i m l e s (World c d)
  = (Throw ("duplicate decision id: " +:+ i), World c d).
Proof.
  intros H. unfold Dialog.insertDecision_fields, bind.
  by rewrite (decisions_insert_taken _ _ _ _ _ H).
Qed.

Lemma insertDecision_fields_free c d i m l e s :
  Dialog.decisions_ d !! i = None ->
  Dialog.insertDecision_fields i m l e s (World c d)
  = (Ret tt,
     World c (Dialog.with_decisions
                (<[i := Decision.Decision i m l e s]> (Dialog.decisions_ d)) d)).
Proof.
  intros H. unfold Dialog.insertDecision_fields, bind.
  by rewrite (decisions_insert_free _ _ _ _ H).
Qed.

Lemma dialog_absent c t i :
  Tree.dialogs_ t !! i = None ->
  Tree.dialog i (World c t) = (Throw ("cannot find dialog with id: " +:+ i), World c t).
Proof. intros H. unfold Tree.dialog. unfold_m. by rewrite H. Qed.

Lemma dialog_present c t i d :
  Tree.dialogs_ t !! i = Some d ->
  Tree.dialog i (World c t) = (Ret d, World c t).
Proof. intros H. unfold Tree.dialog. unfold_m. by rewrite H. Qed.

Lemma decision_absent c d i :
  Dialog.decisions_ d !! i = None ->
  Dialog.decision i (World c d)
  = (Throw ("cannot find decision with id: " +:+ i), World c d).
Proof. intros H. unfold Dialog.decision. unfold_m. by rewrite H. Qed.

Lemma decision_present c d i dec :
  Dialog.decisions_ d !! i = Some dec ->
  Dialog.decision i (World c d) = (Ret dec, World c d).
Proof. intros H. unfold Dialog.decision. unfold_m. by rewrite H. Qed.

(** C2. Inserting an entity whose id is already a key of the target
    collection throws (either overload, Tree and Dialog alike) and leaves the
    container as it was, so that a lookup of the id still returns the entry
    stored first. *)
Theorem duplicate_insert_rejected
    (c : console_state.t)
    (t : Tree.t) (d d0 : Dialog.t) (m l : string)
    (dl : Dialog.t) (dec dec0 : Decision.t) (dm dk : string) (e : bool) (s : Z)
    (Ht : Tree.dialogs_ t !! Dialog.id_ d = Some d0)
    (Hd : Dialog.decisions_ dl !! Decision.id_ dec = Some dec0) :
  Tree.insertDialog d (World c t)
  = (Throw ("duplicate dialog id: " +:+ Dialog.id_ d), World c t)
  /\ Tree.insertDialog_fields (Dialog.id_ d) m l (World c t)
     = (Throw ("duplicate dialog id: " +:+ Dialog.id_ d), World c t)
  /\ Tree.dialog (Dialog.id_ d) (World c t) = (Ret d0, World c t)
  /\ Dialog.insertDecision dec (World c dl)
     = (Throw ("duplicate decision id: " +:+ Decision.id_ dec), World c dl)
  /\ Dialog.insertDecision_fields (Decision.id_ dec) dm dk e s (World c dl)
     = (Throw ("duplicate decision id: " +:+ Decision.id_ dec), World c dl)
  /\ Dialog.decision (Decision.id_ dec) (World c dl) = (Ret dec0, World c dl).
Proof.
  repeat split;
    eauto using insertDialog_taken, insertDialog_fields_taken, dialog_present,
      insertDecision_taken, insertDecision_fields_taken, decision_present.
Qed.

Lemma duplicate_insert_rejected_witness :
  Tree.dialogs_ Scenario.tree_D1 !! "D1" = Some Scenario.first_D1
  /\ Tree.insertDialog Scenario.second_D1 (World console_state.initial Scenario.tree_D1)
     = (Throw "duplicate dialog id: D1", World console_state.initial Scenario.tree_D1)
  /\ Tree.dialog "D1" (World console_state.initial Scenario.tree_D1)
     = (Ret Scenario.first_D1, World console_state.initial Scenario.tree_D1)
  /\ Dialog.insertDecision Scenario.second_c1 (World console_state.initial Scenario.dialog_c1)
     = (Throw "duplicate decision id: c1", World console_state.initial Scenario.dialog_c1)
  /\ Dialog.decision "c1" (World console_state.initial Scenario.dialog_c1)
     = (Ret Scenario.first_c1, World console_state.initial Scenario.dialog_c1).
Proof.
  assert (Ht : Tree.dialogs_ Scenario.tree_D1 !! Dialog.id_ Scenario.second_D1
               = Some Scenario.first_D1) by (vm_compute; reflexivity).
  assert (Hd : Dialog.decisions_ Scenario.dialog_c1 !! Decision.id_ Scenario.second_c1
               = Some Scenario.first_c1) by (vm_compute; reflexivity).
  destruct (duplicate_insert_rejected console_state.initial
              Scenario.tree_D1 Scenario.second_D1 Scenario.first_D1 "" ""
              Scenario.dialog_c1 Scenario.second_c1 Scenario.first_c1 "" "" true 0 Ht Hd)
    as (A & _ & B & C & _ & D).
  split; [exact Ht|]. split; [exact A|]. split; [exact B|]. split; [exact C | exact D].
Defined.

(** Member calls through the reference returned by a lookup. *)
Lemma on_dialog_present {A : Type} c t i d (m : M Dialog.t A) :
  Tree.dialogs_ t !! i = Some d ->
  Tree.on_dialog i m (World c t)
  = (fst (m (World c d)),
     World (con (snd (m (World c d))))
           (Tree.with_dialogs (<[i := obj (snd (m (World c d)))]> (Tree.dialogs_ t)) t)).
Proof.
  intros H. unfold Tree.on_dialog, bind. rewrite (dialog_present _ _ _ _ H).
  unfold through. simpl. by destruct (m (World c d)).
Qed.

Lemma on_dialog_absent {A : Type} c t i (m : M Dialog.t A) :
  Tree.dialogs_ t !! i = None ->
  Tree.on_dialog i m (World c t)
  = (Throw ("cannot find dialog with id: " +:+ i), World c t).
Proof. intros H. unfold Tree.on_dialog, bind. by rewrite (dialog_absent _ _ _ H). Qed.

Lemma on_decision_present {A : Type} c d i dec (m : M Decision.t A) :
  Dialog.decisions_ d !! i = Some dec ->
  Dialog.on_decision i m (World c d)
  = (fst (m (World c dec)),
     World (con (snd (m (World c dec))))
           (Dialog.with_decisions
              (<[i := obj (snd (m (World c dec)))]> (Dialog.decisions_ d)) d)).
Proof.
  intros H. unfold Dialog.on_decision, bind. rewrite (decision_present _ _ _ _ H).
  unfold through. simpl. by destruct (m (World c dec)).
Qed.

Lemma on_decision_absent {A : Type} c d i (m : M Decision.t A) :
  Dialog.decisions_ d !! i = None ->
  Dialog.on_decision i m (World c d)
  = (Throw ("cannot find decision with id: " +:+ i), World c d).
Proof. intros H. unfold Dialog.on_decision, bind. by rewrite (decision_absent _ _ _ H). Qed.

(** C7. Looking up an id that is not a key throws the not-found exception
    and leaves the container as it was, in every Tree and every Dialog, the
    empty ones included; looking up a key returns the stored entity, again
    without changing the container, and a setter called through the returned
    reference changes that stored entity in place (the next lookup returns
    the changed entity). The container of the miss and the container of the
    hit are any two containers. *)
Theorem lookup_miss_and_hit
    (c : console_state.t)
    (t : Tree.t) (missing : string)
    (th : Tree.t) (held : string) (d : Dialog.t) (m : string)
    (dl : Dialog.t) (dmissing : string)
    (dh : Dialog.t) (dheld : string) (dec : Decision.t) (s : Z)
    (Hm : Tree.dialogs_ t !! missing = None)
    (Hh : Tree.dialogs_ th !! held = Some d)
    (Hdm : Dialog.decisions_ dl !! dmissing = None)
    (Hdh : Dialog.decisions_ dh !! dheld = Some dec) :
  Tree.dialog missing (World c t)
  = (Throw ("cannot find dialog with id: " +:+ missing), World c t)
  /\ Tree.dialog held (World c th) = (Ret d, World c th)
  /\ (exists t',
        Tree.on_dialog held (Dialog.set_message m) (World c th) = (Ret tt, World c t')
        /\ Tree.dialog held (World c t')
           = (Ret (Dialog.mk (Dialog.decisions_ d) (Dialog.id_ d) m (Dialog.link_ d)),
              World c t')
        /\ forall k, k <> held -> Tree.dialogs_ t' !! k = Tree.dialogs_ th !! k)
  /\ Dialog.decision dmissing (World c dl)
     = (Throw ("cannot find decision with id: " +:+ dmissing), World c dl)
  /\ Dialog.decision dheld (World c dh) = (Ret dec, World c dh)
  /\ (exists dl',
        Dialog.on_decision dheld (Decision.set_score s) (World c dh) = (Ret tt, World c dl')
        /\ Dialog.decision dheld (World c dl')
           = (Ret (Decision.mk (Decision.id_ dec) (Decision.message_ dec)
                     (Decision.link_ dec) (Decision.enabled_ dec) s),
              World c dl')
        /\ forall k, k <> dheld -> Dialog.decisions_ dl' !! k = Dialog.decisions_ dh !! k).
Proof.
  split; [by apply dialog_absent|]. split; [by apply dialog_present|].
  split.
  { eexists. split; [by rewrite (on_dialog_present _ _ _ _ _ Hh)|]. split.
    - apply dialog_present. simpl. by rewrite lookup_insert_eq.
    - intros k Hk. simpl. by rewrite lookup_insert_ne. }
  split; [by apply decision_absent|]. split; [by apply decision_present|].
  eexists. split; [by rewrite (on_decision_present _ _ _ _ _ Hdh)|]. split.
  - apply decision_present. simpl. by rewrite lookup_insert_eq.
  - intros k Hk. simpl. by rewrite lookup_insert_ne.
Qed.

Lemma lookup_miss_and_hit_witness :
  Tree.dialog "missing" (World console_state.initial (Tree.Tree "D1" 0))
  = (Throw "cannot find dialog with id: missing",
     World console_state.initial (Tree.Tree "D1" 0))
  /\ Tree.dialog "missing" (World console_state.initial Scenario.tree_D1)
     = (Throw "cannot find dialog with id: missing",
        World console_state.initial Scenario.tree_D1)
  /\ Tree.dialog "D1" (World console_state.initial Scenario.tree_D1)
     = (Ret Scenario.first_D1, World console_state.initial Scenario.tree_D1)
  /\ Dialog.decision "c9" (World console_state.initial Scenario.first_D1)
     = (Throw "cannot find decision with id: c9",
        World console_state.initial Scenario.first_D1)
  /\ Dialog.decision "c9" (World console_state.initial Scenario.dialog_c1)
     = (Throw "cannot find decision with id: c9",
        World console_state.initial Scenario.dialog_c1)
  /\ Dialog.decision "c1" (World console_state.initial Scenario.dialog_c1)
     = (Ret Scenario.first_c1, World console_state.initial Scenario.dialog_c1).
Proof.
  assert (He : Tree.dialogs_ (Tree.Tree "D1" 0) !! "missing" = None)
    by (vm_compute; reflexivity).
  assert (Hm : Tree.dialogs_ Scenario.tree_D1 !! "missing" = None)
    by (vm_compute; reflexivity).
  assert (Hh : Tree.dialogs_ Scenario.tree_D1 !! "D1" = Some Scenario.first_D1)
    by (vm_compute; reflexivity).
  assert (Hde : Dialog.decisions_ Scenario.first_D1 !! "c9" = None)
    by (vm_compute; reflexivity).
  assert (Hdm : Dialog.decisions_ Scenario.dialog_c1 !! "c9" = None)
    by (vm_compute; reflexivity).
  assert (Hdh : Dialog.decisions_ Scenario.dialog_c1 !! "c1" = Some Scenario.first_c1)
    by (vm_compute; reflexivity).
  destruct (lookup_miss_and_hit console_state.initial
              (Tree.Tree "D1" 0) "missing" Scenario.tree_D1 "D1" Scenario.first_D1 "changed"
              Scenario.first_D1 "c9" Scenario.dialog_c1 "c1" Scenario.first_c1 3
              He Hh Hde Hdh)
    as (A & B & _ & C & D & _).
  destruct (lookup_miss_and_hit console_state.initial
              Scenario.tree_D1 "missing" Scenario.tree_D1 "D1" Scenario.first_D1 "changed"
              Scenario.dialog_c1 "c9" Scenario.dialog_c1 "c1" Scenario.first_c1 3
              Hm Hh Hdm Hdh)
    as (A' & _ & _ & C' & _ & _).
  split; [exact A|]. split; [exact A'|]. split; [exact B|].
  split; [exact C|]. split; [exact C' | exact D].
Defined.

(** *** The keyed-by-own-id invariant *)

Lemma Decision_run_id c dec o r w' :
  Decision.run o (World c dec) = (r, w') -> Decision.id_ (obj w') = Decision.id_ dec.
Proof. destruct o; intros [= _ <-]; reflexivity. Qed.

Lemma keyed_insert_decision (ds : gmap string Decision.t) (k : string) (dec : Decision.t) :
  (forall k' dec', ds !! k' = Some dec' -> Decision.id_ dec' = k') ->
  Decision.id_ dec = k ->
  forall k' dec', <[k := dec]> ds !! k' = Some dec' -> Decision.id_ dec' = k'.
Proof.
  intros Hds Hk k' dec'. destruct (decide (k = k')) as [->|Hne].
  - rewrite lookup_insert_eq. by intros [= <-].
  - rewrite lookup_insert_ne by done. apply Hds.
Qed.

Lemma Dialog_run_id c d o r w' :
  Dialog.run o (World c d) = (r, w') -> Dialog.id_ (obj w') = Dialog.id_ d.
Proof.
  destruct o as [m|l|dec|i m l e s|i o]; simpl.
  - by intros [= _ <-].
  - by intros [= _ <-].
  - destruct (Dialog.decisions_ d !! Decision.id_ dec) eqn:E.
    + rewrite (insertDecision_taken _ _ _ _ E). by intros [= _ <-].
    + rewrite (insertDecision_free _ _ _ E). by intros [= _ <-].
  - destruct (Dialog.decisions_ d !! i) eqn:E.
    + rewrite (insertDecision_fields_taken _ _ _ _ _ _ _ _ E). by intros [= _ <-].
    + rewrite (insertDecision_fields_free _ _ _ _ _ _ _ E). by intros [= _ <-].
  - destruct (Dialog.decisions_ d !! i) eqn:E.
    + rewrite (on_decision_present _ _ _ _ _ E). by intros [= _ <-].
    + rewrite (on_decision_absent _ _ _ _ E). by intros [= _ <-].
Qed.

(** Every public mutator of a Dialog preserves the invariant, whether it
    returns or throws. *)
Lemma Dialog_run_keyed c d o r w' :
  Dialog.keyed_by_id d -> Dialog.run o (World c d) = (r, w') ->
  Dialog.keyed_by_id (obj w').
Proof.
  intros Hd. destruct o as [m|l|dec|i m l e s|i o]; simpl.
  - by intros [= _ <-].
  - by intros [= _ <-].
  - destruct (Dialog.decisions_ d !! Decision.id_ dec) eqn:E.
    + rewrite (insertDecision_taken _ _ _ _ E). by intros [= _ <-].
    + rewrite (insertDecision_free _ _ _ E). intros [= _ <-].
      unfold Dialog.keyed_by_id; simpl. by apply keyed_insert_decision.
  - destruct (Dialog.decisions_ d !! i) eqn:E.
    + rewrite (insertDecision_fields_taken _ _ _ _ _ _ _ _ E). by intros [= _ <-].
    + rewrite (insertDecision_fields_free _ _ _ _ _ _ _ E). intros [= _ <-].
      unfold Dialog.keyed_by_id; simpl. by apply keyed_insert_decision.
  - destruct (Dialog.decisions_ d !! i) as [dec|] eqn:E.
    + rewrite (on_decision_present _ _ _ _ _ E). intros [= _ <-].
      unfold Dialog.keyed_by_id; simpl. apply keyed_insert_decision; [exact Hd|].
      destruct (Decision.run o (World c dec)) as [r0 w0] eqn:R. simpl.
      rewrite (Decision_run_id _ _ _ _ _ R). by apply Hd.
    + rewrite (on_decision_absent _ _ _ _ E). by intros [= _ <-].
Qed.

Lemma Dialog_reachable_keyed d : Dialog.reachable d -> Dialog.keyed_by_id d.
Proof.
  induction 1 as [i m l|c d o r w' _ IH R].
  - intros k dec. unfold Dialog.Dialog; simpl. by rewrite lookup_empty.
  - by eapply Dialog_run_keyed.
Qed.

Lemma keyed_insert_dialog (ds : gmap string Dialog.t) (k : string) (d : Dialog.t) :
  (forall k' d', ds !! k' = Some d' -> Dialog.id_ d' = k' /\ Dialog.keyed_by_id d') ->
  Dialog.id_ d = k -> Dialog.keyed_by_id d ->
  forall k' d', <[k := d]> ds !! k' = Some d' -> Dialog.id_ d' = k' /\ Dialog.keyed_by_id d'.
Proof.
  intros Hds Hk Hd k' d'. destruct (decide (k = k')) as [->|Hne].
  - rewrite lookup_insert_eq. by intros [= <-].
  - rewrite lookup_insert_ne by done. apply Hds.
Qed.

(** Every public mutator of a Tree preserves the invariant, whether it
    returns or throws. *)
Lemma Tree_run_keyed c t o r w' :
  Tree.keyed_by_id t -> Tree.admissible o -> Tree.run o (World c t) = (r, w') ->
  Tree.keyed_by_id (obj w').
Proof.
  intros Ht Ho. destruct o as [v|d|i m l|i o]; simpl.
  - by intros [= _ <-].
  - destruct (Tree.dialogs_ t !! Dialog.id_ d) eqn:E.
    + rewrite (insertDialog_taken _ _ _ _ E). by intros [= _ <-].
    + rewrite (insertDialog_free _ _ _ E). intros [= _ <-].
      unfold Tree.keyed_by_id; simpl.
      apply keyed_insert_dialog; [exact Ht|reflexivity|].
      by apply Dialog_reachable_keyed.
  - destruct (Tree.dialogs_ t !! i) eqn:E.
    + rewrite (insertDialog_fields_taken _ _ _ _ _ _ E). by intros [= _ <-].
    + rewrite (insertDialog_fields_free _ _ _ _ _ E). intros [= _ <-].
      unfold Tree.keyed_by_id; simpl.
      apply keyed_insert_dialog; [exact Ht|reflexivity|].
      intros k dec. unfold Dialog.Dialog; simpl. by rewrite lookup_empty.
  - destruct (Tree.dialogs_ t !! i) as [d|] eqn:E.
    + rewrite (on_dialog_present _ _ _ _ _ E). intros [= _ <-].
      unfold Tree.keyed_by_id; simpl.
      destruct (Dialog.run o (World c d)) as [r0 w0] eqn:R. simpl.
      destruct (Ht _ _ E) as [Hid Hk].
      apply keyed_insert_dialog; [exact Ht| |].
      * by rewrite (Dialog_run_id _ _ _ _ _ R).
      * by eapply Dialog_run_keyed.
    + rewrite (on_dialog_absent _ _ _ _ E). by intros [= _ <-].
Qed.

(** C9. In every Tree reachable from the constructor by the public mutators
    (the insertions, the setters, and the same calls made on a Dialog or a
    Decision through a lookup), every key of [dialogs_] maps to a Dialog
    carrying that id, every key of that Dialog's [decisions_] maps to a
    Decision carrying that id, and no key occurs twice in either map. *)
Theorem reachable_tree_keyed_by_id (t : Tree.t) (Hr : Tree.reachable t) :
  Tree.keyed_by_id t
  /\ NoDup (map_to_list (Tree.dialogs_ t)).*1
  /\ forall k d, Tree.dialogs_ t !! k = Some d ->
       NoDup (map_to_list (Dialog.decisions_ d)).*1.
Proof.
  split; [|split].
  - induction Hr as [root sc|c t o r w' _ IH Ho R].
    + intros k d. unfold Tree.Tree; simpl. by rewrite lookup_empty.
    + by eapply Tree_run_keyed.
  - apply NoDup_fst_map_to_list.
  - intros k d _. apply NoDup_fst_map_to_list.
Qed.

Lemma run_script_reachable ops t :
  Forall Tree.admissible ops -> Tree.reachable t ->
  Tree.reachable (Scenario.run_script ops t).
Proof.
  intros Hops. revert t. induction Hops as [|o ops Ho _ IH]; intros t Ht; [exact Ht|].
  simpl. apply IH.
  destruct (Tree.run o (World console_state.initial t)) as [r w'] eqn:R.
  by eapply Tree.reach_run.
Qed.

Lemma reachable_tree_keyed_by_id_witness :
  Tree.reachable Scenario.grown_tree
  /\ dom (Tree.dialogs_ Scenario.grown_tree) = {["D1"; "D2"]}
  /\ Tree.keyed_by_id Scenario.grown_tree.
Proof.
  assert (Hr : Tree.reachable Scenario.grown_tree).
  { apply run_script_reachable; [|apply Tree.reach_new].
    repeat constructor.
    change (Dialog.reachable
              (obj (snd (Dialog.run (Dialog.InsertDecision Scenario.first_c1)
                           (World console_state.initial Scenario.first_D1))))).
    destruct (Dialog.run (Dialog.InsertDecision Scenario.first_c1)
                (World console_state.initial Scenario.first_D1)) as [r w'] eqn:R.
    eapply Dialog.reach_run; [apply Dialog.reach_new | exact R]. }
  split; [exact Hr|]. split; [by vm_compute|].
  exact (proj1 (reachable_tree_keyed_by_id Scenario.grown_tree Hr)).
Defined.


(** ** The scanner *)

Section SafeRules.
Context {S : Type}.

Lemma safe_ret {A : Type} (a : A) (w : world S) Q : Q a w -> safe (ret a) w Q.
Proof. done. Qed.

Lemma safe_bind {A B : Type} (m : M S A) (k : A -> M S B) (w : world S) Q :
  safe m w (fun a w1 => safe (k a) w1 Q) -> safe (bind m k) w Q.
Proof. unfold safe, bind. by destruct (m w) as [[a|e|u|] w1]. Qed.

Lemma safe_weaken {A : Type} (m : M S A) (w : world S) (Q Q' : A -> world S -> Prop) :
  safe m w Q -> (forall a w', Q a w' -> Q' a w') -> safe m w Q'.
Proof. unfold safe. destruct (m w) as [[a|e|u|] w1]; auto. Qed.

Lemma safe_log level arg args (w : world S) :
  safe (console.log level arg args) w (fun _ w' => obj w' = obj w).
Proof.
  unfold safe, console.log, console.out, throw, ret.
  destruct (level =? 1); [done|].
  by destruct ((level <? 1) || (level >? console_state.level_ (con w))).
Qed.

(** What a returning computation establishes, read off the judgement. *)
Lemma safe_returns {A : Type} (m : M S A) (w : world S) Q a w' :
  safe m w Q -> m w = (Ret a, w') -> Q a w'.
Proof. unfold safe. intros H E. by rewrite E in H. Qed.

Lemma safe_fuel {A : Type} (m : M S A) (w : world S) Q :
  safe m w Q -> fst (m w) <> OutOfFuel.
Proof. unfold safe. by destruct (m w) as [[a|e|u|] w1]. Qed.
End SafeRules.

Lemma get_Some_lt (line : string) (i : nat) (ch : ascii) :
  String.get i line = Some ch -> (i < String.length line)%nat.
Proof.
  revert i. induction line as [|c0 line IH]; intros [|i]; simpl; try done.
  - lia.
  - intros H. apply IH in H. lia.
Qed.

Lemma get_lt_Some (line : string) (i : nat) :
  (i < String.length line)%nat -> exists ch, String.get i line = Some ch.
Proof.
  revert i. induction line as [|c0 line IH]; intros [|i]; simpl; try lia.
  - by eexists.
  - intros H. apply IH. lia.
Qed.

Section Scanner.
Variable config : configure.t.
Variable line : string.

Abbreviation len := (String.length line).

Implicit Types (c : console_state.t) (i : nat) (t : Token.t) (w : world Parser.state).

(** The iterator primitives on an explicit state. *)
Lemma advance_lt c i t :
  (i < len)%nat ->
  Parser.advance line (World c (Parser.mk i t)) = (Ret tt, World c (Parser.mk (S i) t)).
Proof.
  intros H. unfold Parser.advance; simpl.
  by destruct (Nat.ltb_spec i len); [|lia].
Qed.

Lemma advance_ge c i t :
  (len <= i)%nat ->
  Parser.advance line (World c (Parser.mk i t))
  = (Undefined AdvancePastEnd, World c (Parser.mk i t)).
Proof.
  intros H. unfold Parser.advance; simpl.
  by destruct (Nat.ltb_spec i len); [lia|].
Qed.

Lemma deref_Some c i t ch :
  String.get i line = Some ch ->
  Parser.deref line (World c (Parser.mk i t)) = (Ret ch, World c (Parser.mk i t)).
Proof. intros H. unfold Parser.deref; simpl. by rewrite H. Qed.

Lemma deref_None c i t :
  String.get i line = None ->
  Parser.deref line (World c (Parser.mk i t))
  = (Undefined DerefPastTheEnd, World c (Parser.mk i t)).
Proof. intros H. unfold Parser.deref; simpl. by rewrite H. Qed.

Lemma at_end_eq c i t :
  Parser.at_end line (World c (Parser.mk i t))
  = (Ret (i =? len)%nat, World c (Parser.mk i t)).
Proof. done. Qed.

Lemma safe_advance w :
  safe (Parser.advance line) w
    (fun _ w' => Parser.it (obj w') = Datatypes.S (Parser.it (obj w))
                 /\ (Parser.it (obj w') <= len)%nat).
Proof.
  unfold safe, Parser.advance.
  destruct (Nat.ltb_spec (Parser.it (obj w)) len); simpl; [lia|done].
Qed.

Lemma safe_at_end w :
  safe (Parser.at_end line) w
    (fun b w' => w' = w /\ b = (Parser.it (obj w) =? len)%nat).
Proof. done. Qed.

Lemma safe_deref w :
  safe (Parser.deref line) w (fun _ w' => w' = w /\ (Parser.it (obj w) < len)%nat).
Proof.
  unfold safe, Parser.deref.
  destruct (String.get (Parser.it (obj w)) line) eqn:E; simpl; [|done].
  split; [done|]. by eapply get_Some_lt.
Qed.

Lemma safe_modify_curr f w :
  safe (Parser.modify_curr f) w (fun _ w' => Parser.it (obj w') = Parser.it (obj w)).
Proof. done. Qed.

(** The two loops of [parseMarkerValue] stay below their bound and leave
    the iterator further right, inside the line or at its end. *)
Lemma safe_marker_loop fuel marker w :
  (len - Parser.it (obj w) < fuel)%nat ->
  safe (Parser.marker_loop line fuel marker) w
    (fun _ w' => (Parser.it (obj w) < Parser.it (obj w') <= len)%nat).
Proof.
  revert marker w. induction fuel as [|fuel IH]; intros marker w Hf; [lia|].
  simpl. apply safe_bind. eapply safe_weaken; [apply safe_advance|].
  intros ? w1 [H1 H1']. apply safe_bind. eapply safe_weaken; [apply safe_at_end|].
  intros b w2 [-> ->].
  destruct (Nat.eqb_spec (Parser.it (obj w1)) len) as [E|E].
  { apply safe_ret. lia. }
  apply safe_bind. eapply safe_weaken; [apply safe_deref|].
  intros ch w3 [-> H3].
  destruct (Ascii.eqb ch "]"); [apply safe_ret; lia|].
  eapply safe_weaken; [apply IH; lia|]. intros ? w' H'. simpl in H'. lia.
Qed.

Lemma safe_trim_loop fuel w :
  (len - Parser.it (obj w) < fuel)%nat ->
  safe (Parser.trim_loop line fuel) w
    (fun _ w' => (Parser.it (obj w) < Parser.it (obj w') <= len)%nat).
Proof.
  revert w. induction fuel as [|fuel IH]; intros w Hf; [lia|].
  simpl. apply safe_bind. eapply safe_weaken; [apply safe_advance|].
  intros ? w1 [H1 H1']. apply safe_bind. eapply safe_weaken; [apply safe_at_end|].
  intros b w2 [-> ->].
  destruct (Nat.eqb_spec (Parser.it (obj w1)) len) as [E|E].
  { apply safe_ret. lia. }
  apply safe_bind. eapply safe_weaken; [apply safe_deref|].
  intros ch w3 [-> H3].
  destruct (Ascii.eqb ch " "); [|apply safe_ret; lia].
  eapply safe_weaken; [apply IH; lia|]. intros ? w' H'. simpl in H'. lia.
Qed.

Lemma safe_parseMarkerValue w :
  safe (Parser.parseMarkerValue config line) w
    (fun _ w' => (Parser.it (obj w) < Parser.it (obj w') <= len)%nat).
Proof.
  unfold Parser.parseMarkerValue. apply safe_bind.
  eapply safe_weaken; [apply safe_marker_loop; lia|].
  intros marker w1 H1. apply safe_bind.
  destruct (configure.trim_whitespaces_behind_markers config).
  - eapply safe_weaken; [apply safe_trim_loop; lia|].
    intros ? w2 H2. apply safe_ret. cbv beta in *. lia.
  - apply safe_ret, safe_ret. cbv beta in *. lia.
Qed.

Lemma safe_flip_hasId w :
  safe Parser.flip_hasId w (fun _ w' => Parser.it (obj w') = Parser.it (obj w)).
Proof. done. Qed.

Lemma safe_flip_hasLink w :
  safe Parser.flip_hasLink w (fun _ w' => Parser.it (obj w') = Parser.it (obj w)).
Proof. done. Qed.

Lemma safe_log_it level arg args w :
  safe (console.log level arg args) w
    (fun _ w' => Parser.it (obj w') = Parser.it (obj w)).
Proof. eapply safe_weaken; [apply safe_log|]. by intros ? w' ->. Qed.

(** A step of the judgement: run [m], whose postcondition is given by the
    rule [R], and continue from the world it returns in. *)
Ltac safe_step R :=
  apply safe_bind; eapply safe_weaken; [apply R|]; cbv beta.

(** One iteration of the loop of [parseLine] that returns has moved the
    iterator to the right and not beyond [line.end()]. *)
Lemma safe_parseLine_body w :
  safe (Parser.parseLine_body config line) w
    (fun _ w' => (Parser.it (obj w) < Parser.it (obj w') <= len)%nat).
Proof.
  unfold Parser.parseLine_body.
  safe_step safe_deref. intros ch w0 [-> Hlt].
  apply safe_bind.
  apply safe_weaken
    with (Q := fun _ w2 => (Parser.it (obj w) <= Parser.it (obj w2))%nat).
  2: { intros ? w2 H2. eapply safe_weaken; [apply safe_advance|].
       intros ? w3 [H3 H3']. lia. }
  destruct (Ascii.eqb ch "$").
  2: { eapply safe_weaken; [apply safe_modify_curr|]. intros ? w2 H2. simpl in H2. lia. }
  safe_step safe_advance. intros ? w1 [H1 _].
  safe_step safe_deref. intros c1 w2 [-> _].
  destruct (Ascii.eqb c1 "[").
  { safe_step safe_parseMarkerValue. intros id w2 H2.
    safe_step safe_flip_hasId. intros b w3 H3.
    destruct b.
    - eapply safe_weaken; [apply safe_modify_curr|]. intros ? w4 H4. simpl in H4. lia.
    - eapply safe_weaken; [apply safe_log_it|]. intros ? w4 H4. simpl in H4. lia. }
  destruct (Parser.is_link_letter c1).
  2: { eapply safe_weaken; [apply safe_modify_curr|]. intros ? w2 H2. simpl in H2. lia. }
  safe_step safe_advance. intros ? w2 [H2 _].
  safe_step safe_deref. intros c2 w3 [-> _].
  destruct (Ascii.eqb c2 "[").
  2: { eapply safe_weaken; [apply safe_modify_curr|]. intros ? w3 H3. simpl in H3. lia. }
  safe_step safe_parseMarkerValue. intros link w3 H3.
  safe_step safe_flip_hasLink. intros b w4 H4.
  apply safe_bind.
  apply safe_weaken
    with (Q := fun _ w5 => Parser.it (obj w5) = Parser.it (obj w4)).
  { destruct b; [apply safe_modify_curr | apply safe_log_it]. }
  intros ? w5 H5.
  destruct (Ascii.eqb c1 "T" || Ascii.eqb c1 "t");
    (eapply safe_weaken; [apply safe_modify_curr|]; intros ? w6 H6; simpl in H6; lia).
Qed.

(** The loop of [parseLine] never exhausts a bound above the number of
    characters left, and when it returns the iterator is [line.end()]. *)
Lemma safe_parseLine_loop fuel w :
  (len - Parser.it (obj w) < fuel)%nat ->
  safe (Parser.parseLine_loop config line fuel) w
    (fun _ w' => Parser.it (obj w') = len).
Proof.
  revert w. induction fuel as [|fuel IH]; intros w Hf; [lia|].
  simpl. safe_step safe_at_end. intros b w0 [-> ->].
  destruct (Nat.eqb_spec (Parser.it (obj w)) len) as [E|E]; [by apply safe_ret|].
  safe_step safe_parseLine_body. intros ? w1 H1.
  apply IH. lia.
Qed.

(** [parseLine] is total in the model (its loop bound is never the reason
    it stops), and a call that returns does so with the iterator at
    [line.end()], returning a copy of [curr]. *)
Lemma safe_parseLine w :
  safe (Parser.parseLine config line) w
    (fun tok w' => Parser.it (obj w') = len /\ tok = Parser.curr (obj w')).
Proof.
  unfold Parser.parseLine.
  safe_step safe_parseLine_loop; [lia|]. intros ? w1 H1.
  unfold safe; simpl. done.
Qed.

(** Once above the number of characters left, the bound of the loop does
    not matter. *)
Lemma parseLine_loop_fuel f1 f2 w :
  (len - Parser.it (obj w) < f1)%nat -> (len - Parser.it (obj w) < f2)%nat ->
  Parser.parseLine_loop config line f1 w = Parser.parseLine_loop config line f2 w.
Proof.
  revert f2 w. induction f1 as [|f1 IH]; intros [|f2] w H1 H2; try lia.
  simpl. unfold bind at 1 3. rewrite (surjective_pairing (Parser.at_end line w)).
  simpl. destruct (Nat.eqb_spec (Parser.it (obj w)) len) as [E|E]; [done|].
  unfold bind.
  pose proof (safe_parseLine_body w) as Hb. unfold safe in Hb.
  destruct (Parser.parseLine_body config line w) as [[[]|e|u|] w1]; try done.
  apply IH; lia.
Qed.

(** The iteration of the loop at a ['$'] that opens no marker. *)
Lemma parseLine_body_dollar_char c i t q :
  String.get i line = Some "$"%char ->
  String.get (S i) line = Some q ->
  q <> "["%char -> Parser.is_link_letter q = false ->
  Parser.parseLine_body config line (World c (Parser.mk i t))
  = (Ret tt,
     World c (Parser.mk (S (S i))
                (Token.mk (Token.text t +:+ String "$" (String q ""))
                   (Token.id t) (Token.link t) (Token.isTreeLink t)
                   (Token.hasId t) (Token.hasLink t)))).
Proof.
  intros H0 H1 Hq Hl.
  pose proof (get_Some_lt _ _ _ H0). pose proof (get_Some_lt _ _ _ H1).
  apply Ascii.eqb_neq in Hq.
  unfold Parser.parseLine_body, bind.
  rewrite (deref_Some _ _ _ _ H0). simpl.
  rewrite advance_lt by lia. rewrite (deref_Some _ _ _ _ H1).
  rewrite Hq, Hl. unfold Parser.text_append, Parser.modify_curr, modify_obj. simpl.
  by rewrite advance_lt by lia.
Qed.

Lemma parseLine_body_dollar_letter_char c i t l q :
  String.get i line = Some "$"%char ->
  String.get (S i) line = Some l -> Parser.is_link_letter l = true ->
  String.get (S (S i)) line = Some q -> q <> "["%char ->
  Parser.parseLine_body config line (World c (Parser.mk i t))
  = (Ret tt,
     World c (Parser.mk (S (S (S i)))
                (Token.mk (Token.text t +:+ String "$" (String l (String q "")))
                   (Token.id t) (Token.link t) (Token.isTreeLink t)
                   (Token.hasId t) (Token.hasLink t)))).
Proof.
  intros H0 H1 Hl H2 Hq.
  pose proof (get_Some_lt _ _ _ H0). pose proof (get_Some_lt _ _ _ H1).
  pose proof (get_Some_lt _ _ _ H2).
  apply Ascii.eqb_neq in Hq.
  assert (Hb : Ascii.eqb l "[" = false).
  { apply Ascii.eqb_neq. intros ->. discriminate Hl. }
  unfold Parser.parseLine_body, bind.
  rewrite (deref_Some _ _ _ _ H0). simpl.
  rewrite advance_lt by lia. rewrite (deref_Some _ _ _ _ H1).
  rewrite Hb, Hl. rewrite advance_lt by lia. rewrite (deref_Some _ _ _ _ H2).
  rewrite Hq. unfold Parser.text_append, Parser.modify_curr, modify_obj. simpl.
  by rewrite advance_lt by lia.
Qed.

(** When an iteration returns, the call of [parseLine] goes on exactly as
    a call started in the world the iteration left. *)
Lemma parseLine_after_body w w1 :
  Parser.parseLine_body config line w = (Ret tt, w1) ->
  Parser.parseLine config line w = Parser.parseLine config line w1.
Proof.
  intros Hb.
  pose proof (safe_returns _ _ _ _ _ (safe_parseLine_body w) Hb) as Hit.
  cbv beta in Hit.
  assert (E1 : Parser.parseLine_loop config line (S len) w
               = Parser.parseLine_loop config line len w1).
  { cbn [Parser.parseLine_loop]. unfold bind at 1.
    rewrite (surjective_pairing (Parser.at_end line w)). simpl.
    destruct (Nat.eqb_spec (Parser.it (obj w)) len) as [E|E]; [lia|].
    unfold bind at 1. by rewrite Hb. }
  assert (E2 : Parser.parseLine_loop config line (S len) w1
               = Parser.parseLine_loop config line len w1)
    by (apply parseLine_loop_fuel; lia).
  unfold Parser.parseLine, bind. by rewrite E1, E2.
Qed.
End Scanner.

(** [parseLine] never stops for lack of loop bound: the model gives every
    call an outcome of the code. *)
Lemma parseLine_total config line w :
  fst (Parser.parseLine config line w) <> OutOfFuel.
Proof. eapply safe_fuel, safe_parseLine. Qed.


(** A ['$'] that opens no marker, when the scan stands on it and the
    characters it reads behind it are inside the line. Followed by a
    character [q] other than ['['], ['T'], ['t'], ['D'], ['d'], the two
    characters are appended to the token's text, id, link and flags are left
    as they are, and the scan goes on behind [q]. *)
Lemma dollar_char_is_literal
    (config : configure.t) (line : string) (c : console_state.t)
    (i : nat) (t : Token.t) (q : ascii) :
  String.get i line = Some "$"%char ->
  String.get (S i) line = Some q ->
  q <> "["%char -> Parser.is_link_letter q = false ->
  Parser.parseLine config line (World c (Parser.mk i t))
  = Parser.parseLine config line
      (World c (Parser.mk (S (S i))
                  (Token.mk (Token.text t +:+ String "$" (String q ""))
                     (Token.id t) (Token.link t) (Token.isTreeLink t)
                     (Token.hasId t) (Token.hasLink t)))).
Proof.
  intros Hi Hq Hq1 Hq2. apply parseLine_after_body.
  by apply parseLine_body_dollar_char.
Qed.

(** Followed by one of the four letters [l] and then by a character [q]
    other than ['['], the three characters are appended likewise and the
    scan goes on behind [q]. *)
Lemma dollar_letter_char_is_literal
    (config : configure.t) (line : string) (c : console_state.t)
    (i : nat) (t : Token.t) (l q : ascii) :
  String.get i line = Some "$"%char ->
  String.get (S i) line = Some l -> Parser.is_link_letter l = true ->
  String.get (S (S i)) line = Some q -> q <> "["%char ->
  Parser.parseLine config line (World c (Parser.mk i t))
  = Parser.parseLine config line
      (World c (Parser.mk (S (S (S i)))
                  (Token.mk (Token.text t +:+ String "$" (String l (String q "")))
                     (Token.id t) (Token.link t) (Token.isTreeLink t)
                     (Token.hasId t) (Token.hasLink t)))).
Proof.
  intros Hi Hl Hl1 Hq Hq1. apply parseLine_after_body.
  by apply parseLine_body_dollar_letter_char.
Qed.

(** The line made of ['$'] and such a [q] scans, from a fresh token, to the
    text ["$q"] with empty id and link, under every configuration. *)
Lemma scan_dollar_char (config : configure.t) (q : ascii) :
  q <> "["%char -> Parser.is_link_letter q = false ->
  Parser.scan config (String "$" (String q ""))
  = (Ret (Token.mk (String "$" (String q "")) "" "" false false false),
     World console_state.initial
       (Parser.mk 2 (Token.mk (String "$" (String q "")) "" "" false false false))).
Proof.
  intros Hq1 Hq2. unfold Parser.scan.
  rewrite (dollar_char_is_literal config (String "$" (String q ""))
             console_state.initial 0 Token.fresh q eq_refl eq_refl Hq1 Hq2).
  reflexivity.
Qed.

(** C8, evaluated. The line ["$q"] scans to the text ["$q"] with no id and
    no link, and so does a ['$'] in mid-line that the scan reaches with its
    following character inside the line. But not every ['$'] that opens no
    marker is literal. Under the default configuration the ['$'] right
    behind a marker is the character the closing [it++] skips: ["$[a]$q"]
    scans to the text ["q"], the ['$'] lost (with trimming disabled the text
    is ["$q"]). And a ['$'], or a ['$'] and a link letter, closing the line
    has no following character: [parseLine] dereferences [line.end()],
    whatever the configuration, instead of appending them. *)
Theorem dollar_behind_marker_or_at_line_end (config : configure.t) :
  fst (Parser.scan config "$q") = Ret (Token.mk "$q" "" "" false false false)
  /\ fst (Parser.scan config "cost: $5")
     = Ret (Token.mk "cost: $5" "" "" false false false)
  /\ fst (Parser.scan Scenario.trim_on "$[a]$q")
     = Ret (Token.mk "q" "a" "" false true false)
  /\ fst (Parser.scan Scenario.trim_off "$[a]$q")
     = Ret (Token.mk "$q" "a" "" false true false)
  /\ Parser.scan config "ab$"
     = (Undefined DerefPastTheEnd,
        World console_state.initial
          (Parser.mk 3 (Token.mk "ab" "" "" false false false)))
  /\ Parser.scan config "ab$T"
     = (Undefined DerefPastTheEnd,
        World console_state.initial
          (Parser.mk 4 (Token.mk "ab" "" "" false false false))).
Proof. destruct config as [ind lvl [] dis]; repeat split; vm_compute; reflexivity. Qed.

(** A marker met while the token already has an id (or a link): if the
    marker's content scans to [v], the iteration throws, and the token keeps
    its text, id, link and link kind; only the flag is flipped back. *)
Lemma second_id_marker_throws config line c i t v c' i' :
  String.get i line = Some "$"%char ->
  String.get (S i) line = Some "["%char ->
  Token.hasId t = true ->
  Parser.parseMarkerValue config line (World c (Parser.mk (S i) t))
  = (Ret v, World c' (Parser.mk i' t)) ->
  Parser.parseLine_body config line (World c (Parser.mk i t))
  = (Throw ("found another id within token: " +:+ v),
     World c' (Parser.mk i'
                 (Token.mk (Token.text t) (Token.id t) (Token.link t)
                    (Token.isTreeLink t) false (Token.hasLink t)))).
Proof.
  intros H0 H1 Hid Hv. pose proof (get_Some_lt _ _ _ H1).
  unfold Parser.parseLine_body, bind.
  rewrite (deref_Some _ _ _ _ _ H0). simpl.
  rewrite advance_lt by lia. rewrite (deref_Some _ _ _ _ _ H1). simpl.
  rewrite Hv. simpl. by rewrite Hid.
Qed.

Lemma second_link_marker_throws config line c i t l v c' i' :
  String.get i line = Some "$"%char ->
  String.get (S i) line = Some l -> Parser.is_link_letter l = true ->
  String.get (S (S i)) line = Some "["%char ->
  Token.hasLink t = true ->
  Parser.parseMarkerValue config line (World c (Parser.mk (S (S i)) t))
  = (Ret v, World c' (Parser.mk i' t)) ->
  Parser.parseLine_body config line (World c (Parser.mk i t))
  = (Throw ("found another link within token: " +:+ v),
     World c' (Parser.mk i'
                 (Token.mk (Token.text t) (Token.id t) (Token.link t)
                    (Token.isTreeLink t) (Token.hasId t) false))).
Proof.
  intros H0 H1 Hl H2 Hlk Hv.
  pose proof (get_Some_lt _ _ _ H1). pose proof (get_Some_lt _ _ _ H2).
  assert (Hb : Ascii.eqb l "[" = false).
  { apply Ascii.eqb_neq. intros ->. discriminate Hl. }
  unfold Parser.parseLine_body, bind.
  rewrite (deref_Some _ _ _ _ _ H0). simpl.
  rewrite advance_lt by lia. rewrite (deref_Some _ _ _ _ _ H1).
  rewrite Hb, Hl. rewrite advance_lt by lia. rewrite (deref_Some _ _ _ _ _ H2). simpl.
  rewrite Hv. simpl. by rewrite Hlk.
Qed.

(** *** Where the scanner departs from its documentation *)

(** C1, evaluated. With trimming disabled the text resumes right behind the
    marker; with trimming enabled (the default) [parseMarkerValue] leaves the
    iterator on the first character behind the spaces instead of on the last
    character it consumed, and the [it++] closing the iteration of
    [parseLine] skips that character: ["$[a]   text"] scans to the text
    ["ext"] and ["$[foo]bar"] to ["ar"]. *)
Theorem trim_skips_the_character_behind_a_marker :
  fst (Parser.scan Scenario.trim_on "$[a]   text")
  = Ret (Token.mk "ext" "a" "" false true false)
  /\ fst (Parser.scan Scenario.trim_on "$[foo]bar")
     = Ret (Token.mk "ar" "foo" "" false true false)
  /\ fst (Parser.scan Scenario.trim_off "$[a]   text")
     = Ret (Token.mk "   text" "a" "" false true false)
  /\ fst (Parser.scan Scenario.trim_off "$[foo]bar")
     = Ret (Token.mk "bar" "foo" "" false true false).
Proof. repeat split; vm_compute; reflexivity. Qed.

(** C3, evaluated. On ["$[abc"] the content loop of [parseMarkerValue]
    consumes ["abc"] up to [line.end()] and throws nothing, but the scan does
    not end there: with trimming enabled the trim loop, and with trimming
    disabled the [it++] closing the iteration of [parseLine] (after the id
    ["abc"] has been stored), advances the iterator past [line.end()]. *)
Theorem unterminated_marker_runs_past_the_end :
  Parser.marker_loop "$[abc" 6 "" (World console_state.initial (Parser.mk 1 Token.fresh))
  = (Ret "abc", World console_state.initial (Parser.mk 5 Token.fresh))
  /\ Parser.parseMarkerValue Scenario.trim_off "$[abc"
       (World console_state.initial (Parser.mk 1 Token.fresh))
     = (Ret "abc", World console_state.initial (Parser.mk 5 Token.fresh))
  /\ Parser.scan Scenario.trim_off "$[abc"
     = (Undefined AdvancePastEnd,
        World console_state.initial
          (Parser.mk 5 (Token.mk "" "abc" "" false true false)))
  /\ Parser.scan Scenario.trim_on "$[abc"
     = (Undefined AdvancePastEnd,
        World console_state.initial (Parser.mk 5 Token.fresh)).
Proof. repeat split; vm_compute; reflexivity. Qed.

(** C4, evaluated. With trimming enabled ["$T[x] go"] scans to the link
    ["x"] of kind tree but to the text ["o"], the ['g'] being skipped, and on
    ["$d[y]"] the link ["y"] of kind dialog is stored but the trim loop then
    leaves the iterator at [line.end()] and the closing [it++] advances it
    past the end. With trimming disabled both lines scan as documented, the
    first to the text [" go"]. *)
Theorem link_marker_scans :
  fst (Parser.scan Scenario.trim_on "$T[x] go")
  = Ret (Token.mk "o" "" "x" true false true)
  /\ Parser.scan Scenario.trim_on "$d[y]"
     = (Undefined AdvancePastEnd,
        World console_state.initial
          (Parser.mk 5 (Token.mk "" "" "y" false false true)))
  /\ fst (Parser.scan Scenario.trim_off "$T[x] go")
     = Ret (Token.mk " go" "" "x" true false true)
  /\ fst (Parser.scan Scenario.trim_off "$d[y]")
     = Ret (Token.mk "" "" "y" false false true).
Proof. repeat split; vm_compute; reflexivity. Qed.

(** C5, evaluated. With trimming disabled the second marker of ["$[a]$[b]"]
    makes [parseLine] throw, the token keeping the id ["a"] and its text.
    With trimming enabled the ['$'] of the second marker is the character
    skipped behind the first one: nothing is reported and ["[b]"] becomes
    text; likewise for two link markers. *)
Theorem second_marker_scans :
  Parser.scan Scenario.trim_off "$[a]$[b]"
  = (Throw "found another id within token: b",
     World console_state.initial (Parser.mk 7 (Token.mk "" "a" "" false false false)))
  /\ fst (Parser.scan Scenario.trim_on "$[a]$[b]")
     = Ret (Token.mk "[b]" "a" "" false true false)
  /\ Parser.scan Scenario.trim_off "$T[a]$d[b]"
     = (Throw "found another link within token: b",
        World console_state.initial (Parser.mk 9 (Token.mk "" "" "a" true false false)))
  /\ fst (Parser.scan Scenario.trim_on "$T[a]$d[b]")
     = Ret (Token.mk "d[b]" "" "a" true false true).
Proof. repeat split; vm_compute; reflexivity. Qed.

(** C10, evaluated. Whatever the configuration, a line ending in ['$'] or in
    ['$'] and a link letter makes [parseLine] dereference [line.end()], and a
    line ending in an unterminated marker makes it advance the iterator past
    [line.end()]; so does, with trimming enabled, a line ending in the
    closing [']'] of a marker. *)
Theorem scan_leaves_the_line (config : configure.t) :
  fst (Parser.scan config "$") = Undefined DerefPastTheEnd
  /\ fst (Parser.scan config "say $") = Undefined DerefPastTheEnd
  /\ fst (Parser.scan config "$T") = Undefined DerefPastTheEnd
  /\ fst (Parser.scan config "$d") = Undefined DerefPastTheEnd
  /\ fst (Parser.scan config "$[abc") = Undefined AdvancePastEnd
  /\ fst (Parser.scan Scenario.trim_on "$[a]") = Undefined AdvancePastEnd
  /\ fst (Parser.scan Scenario.trim_on "$t[a]  ") = Undefined AdvancePastEnd.
Proof. destruct config as [ind lvl [] dis]; repeat split; vm_compute; reflexivity. Qed.

(** * Further properties of the containers *)



(** The order of insertion does not matter: two entities with distinct ids,
    neither of which is a key yet, leave the same container whichever is
    inserted first. *)
Theorem insertion_order_irrelevant
    (c : console_state.t)
    (t : Tree.t) (d1 d2 : Dialog.t)
    (dl : Dialog.t) (e1 e2 : Decision.t)
    (Hne : Dialog.id_ d1 <> Dialog.id_ d2)
    (H1 : Tree.dialogs_ t !! Dialog.id_ d1 = None)
    (H2 : Tree.dialogs_ t !! Dialog.id_ d2 = None)
    (Hne' : Decision.id_ e1 <> Decision.id_ e2)
    (H1' : Dialog.decisions_ dl !! Decision.id_ e1 = None)
    (H2' : Dialog.decisions_ dl !! Decision.id_ e2 = None) :
  (let* _ := Tree.insertDialog d1 in Tree.insertDialog d2) (World c t)
  = (let* _ := Tree.insertDialog d2 in Tree.insertDialog d1) (World c t)
  /\ fst ((let* _ := Tree.insertDialog d1 in Tree.insertDialog d2) (World c t)) = Ret tt
  /\ (let* _ := Dialog.insertDecision e1 in Dialog.insertDecision e2) (World c dl)
     = (let* _ := Dialog.insertDecision e2 in Dialog.insertDecision e1) (World c dl)
  /\ fst ((let* _ := Dialog.insertDecision e1 in Dialog.insertDecision e2) (World c dl))
     = Ret tt.
Proof.
  assert (Et : (let* _ := Tree.insertDialog d1 in Tree.insertDialog d2) (World c t)
               = (Ret tt,
                  World c (Tree.with_dialogs
                             (<[Dialog.id_ d2 := d2]> (<[Dialog.id_ d1 := d1]> (Tree.dialogs_ t)))
                             t))).
  { unfold bind. rewrite (insertDialog_free _ _ _ H1).
    rewrite insertDialog_free; [done|]. simpl. by rewrite lookup_insert_ne. }
  assert (Et' : (let* _ := Tree.insertDialog d2 in Tree.insertDialog d1) (World c t)
                = (Ret tt,
                   World c (Tree.with_dialogs
                              (<[Dialog.id_ d1 := d1]> (<[Dialog.id_ d2 := d2]> (Tree.dialogs_ t)))
                              t))).
  { unfold bind. rewrite (insertDialog_free _ _ _ H2).
    rewrite insertDialog_free; [done|]. simpl. by rewrite lookup_insert_ne. }
  assert (Ed : (let* _ := Dialog.insertDecision e1 in Dialog.insertDecision e2) (World c dl)
               = (Ret tt,
                  World c (Dialog.with_decisions
                             (<[Decision.id_ e2 := e2]>
                                (<[Decision.id_ e1 := e1]> (Dialog.decisions_ dl)))
                             dl))).
  { unfold bind. rewrite (insertDecision_free _ _ _ H1').
    rewrite insertDecision_free; [done|]. simpl. by rewrite lookup_insert_ne. }
  assert (Ed' : (let* _ := Dialog.insertDecision e2 in Dialog.insertDecision e1) (World c dl)
                = (Ret tt,
                   World c (Dialog.with_decisions
                              (<[Decision.id_ e1 := e1]>
                                 (<[Decision.id_ e2 := e2]> (Dialog.decisions_ dl)))
                              dl))).
  { unfold bind. rewrite (insertDecision_free _ _ _ H2').
    rewrite insertDecision_free; [done|]. simpl. by rewrite lookup_insert_ne. }
  rewrite Et, Et', Ed, Ed'. repeat split.
  - by rewrite (insert_insert_ne _ _ _ _ _ Hne).
  - by rewrite (insert_insert_ne _ _ _ _ _ Hne').
Qed.

Lemma insertion_order_irrelevant_witness :
  (let* _ := Tree.insertDialog (Dialog.Dialog "A" "a" "") in
   Tree.insertDialog (Dialog.Dialog "B" "b" "A"))
    (World console_state.initial Scenario.tree_D1)
  = (let* _ := Tree.insertDialog (Dialog.Dialog "B" "b" "A") in
     Tree.insertDialog (Dialog.Dialog "A" "a" ""))
      (World console_state.initial Scenario.tree_D1)
  /\ (let* _ := Dialog.insertDecision (Decision.Decision "x" "" "" true 1) in
      Dialog.insertDecision (Decision.Decision "y" "" "" false 2))
       (World console_state.initial Scenario.dialog_c1)
     = (let* _ := Dialog.insertDecision (Decision.Decision "y" "" "" false 2) in
        Dialog.insertDecision (Decision.Decision "x" "" "" true 1))
         (World console_state.initial Scenario.dialog_c1).
Proof.
  assert (Hne : Dialog.id_ (Dialog.Dialog "A" "a" "") <> Dialog.id_ (Dialog.Dialog "B" "b" "A"))
    by discriminate.
  assert (Hne' : Decision.id_ (Decision.Decision "x" "" "" true 1)
                 <> Decision.id_ (Decision.Decision "y" "" "" false 2)) by discriminate.
  destruct (insertion_order_irrelevant console_state.initial Scenario.tree_D1
              (Dialog.Dialog "A" "a" "") (Dialog.Dialog "B" "b" "A")
              Scenario.dialog_c1
              (Decision.Decision "x" "" "" true 1) (Decision.Decision "y" "" "" false 2)
              Hne ltac:(vm_compute; reflexivity) ltac:(vm_compute; reflexivity)
              Hne' ltac:(vm_compute; reflexivity) ltac:(vm_compute; reflexivity))
    as (A & _ & B & _).
  split; [exact A | exact B].
Defined.

(** *** What a container call never does *)

Lemma Decision_run_frame c dec o :
  Decision.run o (World c dec)
  = (Ret tt, World c (obj (snd (Decision.run o (World c dec))))).
Proof. by destruct o. Qed.

(** A call on a Dialog that throws has changed nothing, and no call touches
    the console. *)
Lemma Dialog_run_outcome c d o :
  con (snd (Dialog.run o (World c d))) = c
  /\ (forall e, fst (Dialog.run o (World c d)) = Throw e ->
        snd (Dialog.run o (World c d)) = World c d)
  /\ (forall u, fst (Dialog.run o (World c d)) <> Undefined u)
  /\ fst (Dialog.run o (World c d)) <> OutOfFuel.
Proof.
  destruct o as [m|l|dec|i m l e s|i o]; simpl.
  - done.
  - done.
  - destruct (Dialog.decisions_ d !! Decision.id_ dec) eqn:E.
    + by rewrite (insertDecision_taken _ _ _ _ E).
    + by rewrite (insertDecision_free _ _ _ E).
  - destruct (Dialog.decisions_ d !! i) eqn:E.
    + by rewrite (insertDecision_fields_taken _ _ _ _ _ _ _ _ E).
    + by rewrite (insertDecision_fields_free _ _ _ _ _ _ _ E).
  - destruct (Dialog.decisions_ d !! i) as [dec|] eqn:E.
    + rewrite (on_decision_present _ _ _ _ _ E).
      rewrite (Decision_run_frame c dec o). by simpl.
    + by rewrite (on_decision_absent _ _ _ _ E).
Qed.

Lemma incrementScore_outcome (t : Tree.t) (v : Z) :
  match incrementScore v t with
  | Some t' =>
      t' = Tree.mk (Tree.dialogs_ t) (Tree.root_ t) (Tree.id_ t) (Tree.score_ t + v)
      /\ int_min <= Tree.score_ t + v <= int_max
  | None => ~ (int_min <= Tree.score_ t + v <= int_max)
  end.
Proof.
  unfold incrementScore, in_int.
  destruct (Z.leb_spec int_min (Tree.score_ t + v));
    destruct (Z.leb_spec (Tree.score_ t + v) int_max); simpl;
    try (split; [reflexivity|lia]); lia.
Qed.

(** Exception safety of the containers. Whatever public mutator other than
    [incrementScore] is called on a Tree (the insertions and the score
    setter, or a mutator of one of its Dialogs or Decisions through a
    lookup): the console is left alone; the call either returns or throws,
    never leaving defined behaviour; and when it throws, the Tree is exactly
    what it was before the call. [incrementScore], the remaining public
    mutator, never throws: it changes the score and nothing else when the
    sum fits [int], and is the undefined signed overflow exactly when it does
    not. *)
Theorem container_call_throws_or_commits
    (c : console_state.t) (t : Tree.t) (o : Tree.op) (v : Z) :
  con (snd (Tree.run o (World c t))) = c
  /\ (forall e, fst (Tree.run o (World c t)) = Throw e ->
        snd (Tree.run o (World c t)) = World c t)
  /\ (forall u, fst (Tree.run o (World c t)) <> Undefined u)
  /\ fst (Tree.run o (World c t)) <> OutOfFuel
  /\ match incrementScore v t with
     | Some t' =>
         t' = Tree.mk (Tree.dialogs_ t) (Tree.root_ t) (Tree.id_ t) (Tree.score_ t + v)
         /\ int_min <= Tree.score_ t + v <= int_max
     | None => ~ (int_min <= Tree.score_ t + v <= int_max)
     end.
Proof.
  pose proof (incrementScore_outcome t v) as Hinc.
  cut (con (snd (Tree.run o (World c t))) = c
       /\ (forall e, fst (Tree.run o (World c t)) = Throw e ->
             snd (Tree.run o (World c t)) = World c t)
       /\ (forall u, fst (Tree.run o (World c t)) <> Undefined u)
       /\ fst (Tree.run o (World c t)) <> OutOfFuel).
  { intros (A & B & C & D). auto. }
  clear Hinc. destruct o as [v'|d|i m l|i o]; simpl.
  - done.
  - destruct (Tree.dialogs_ t !! Dialog.id_ d) eqn:E.
    + by rewrite (insertDialog_taken _ _ _ _ E).
    + by rewrite (insertDialog_free _ _ _ E).
  - destruct (Tree.dialogs_ t !! i) eqn:E.
    + by rewrite (insertDialog_fields_taken _ _ _ _ _ _ E).
    + by rewrite (insertDialog_fields_free _ _ _ _ _ E).
  - destruct (Tree.dialogs_ t !! i) as [d|] eqn:E.
    + rewrite (on_dialog_present _ _ _ _ _ E). simpl.
      destruct (Dialog_run_outcome c d o) as (Hc & Ht & Hu & Hf).
      repeat split; try done.
      intros e He. rewrite (Ht e He). simpl.
      rewrite (insert_id _ _ _ E). by rewrite Tree_with_dialogs_same.
    + by rewrite (on_dialog_absent _ _ _ _ E).
Qed.

Lemma container_call_throws_or_commits_witness :
  fst (Tree.run (Tree.OnDialog "D1" (Dialog.InsertDecision Scenario.second_c1))
         (World console_state.initial Scenario.grown_tree))
  = Throw "duplicate decision id: c1"
  /\ snd (Tree.run (Tree.OnDialog "D1" (Dialog.InsertDecision Scenario.second_c1))
            (World console_state.initial Scenario.grown_tree))
     = World console_state.initial Scenario.grown_tree.
Proof.
  assert (H : fst (Tree.run (Tree.OnDialog "D1" (Dialog.InsertDecision Scenario.second_c1))
                     (World console_state.initial Scenario.grown_tree))
              = Throw "duplicate decision id: c1") by (vm_compute; reflexivity).
  split; [exact H|].
  exact (proj1 (proj2 (container_call_throws_or_commits console_state.initial
                         Scenario.grown_tree
                         (Tree.OnDialog "D1" (Dialog.InsertDecision Scenario.second_c1)) 1))
           _ H).
Defined.

(** No public mutator of a Tree removes a Dialog: the keys present before a
    call are present after it, at most one key is added, and only the two
    insertions add any. The root is never changed. The score is changed by
    its setter and by [incrementScore] only, and [incrementScore] (when the
    sum fits [int]) changes nothing but the score, which becomes the sum. *)
Theorem container_call_keeps_keys
    (c : console_state.t) (t : Tree.t) (o : Tree.op) (v : Z) :
  dom (Tree.dialogs_ t) ⊆ dom (Tree.dialogs_ (obj (snd (Tree.run o (World c t)))))
  /\ (size (Tree.dialogs_ (obj (snd (Tree.run o (World c t))))) <= S (size (Tree.dialogs_ t)))%nat
  /\ Tree.root_ (obj (snd (Tree.run o (World c t)))) = Tree.root_ t
  /\ match o with
     | Tree.Score v' =>
         Tree.dialogs_ (obj (snd (Tree.run o (World c t)))) = Tree.dialogs_ t
         /\ Tree.score_ (obj (snd (Tree.run o (World c t)))) = v'
     | Tree.OnDialog i _ =>
         dom (Tree.dialogs_ (obj (snd (Tree.run o (World c t))))) = dom (Tree.dialogs_ t)
         /\ Tree.score_ (obj (snd (Tree.run o (World c t)))) = Tree.score_ t
         /\ forall k, k <> i ->
              Tree.dialogs_ (obj (snd (Tree.run o (World c t)))) !! k = Tree.dialogs_ t !! k
     | _ => Tree.score_ (obj (snd (Tree.run o (World c t)))) = Tree.score_ t
     end
  /\ match incrementScore v t with
     | Some t' =>
         Tree.dialogs_ t' = Tree.dialogs_ t /\ Tree.root_ t' = Tree.root_ t
         /\ Tree.id_ t' = Tree.id_ t /\ Tree.score_ t' = Tree.score_ t + v
     | None => ~ (int_min <= Tree.score_ t + v <= int_max)
     end.
Proof.
  assert (Hinc : match incrementScore v t with
                 | Some t' =>
                     Tree.dialogs_ t' = Tree.dialogs_ t /\ Tree.root_ t' = Tree.root_ t
                     /\ Tree.id_ t' = Tree.id_ t /\ Tree.score_ t' = Tree.score_ t + v
                 | None => ~ (int_min <= Tree.score_ t + v <= int_max)
                 end).
  { pose proof (incrementScore_outcome t v) as H.
    destruct (incrementScore v t) as [t'|]; [|exact H].
    destruct H as [-> _]. by simpl. }
  cut (dom (Tree.dialogs_ t) ⊆ dom (Tree.dialogs_ (obj (snd (Tree.run o (World c t)))))
       /\ (size (Tree.dialogs_ (obj (snd (Tree.run o (World c t)))))
           <= S (size (Tree.dialogs_ t)))%nat
       /\ Tree.root_ (obj (snd (Tree.run o (World c t)))) = Tree.root_ t
       /\ match o with
          | Tree.Score v' =>
              Tree.dialogs_ (obj (snd (Tree.run o (World c t)))) = Tree.dialogs_ t
              /\ Tree.score_ (obj (snd (Tree.run o (World c t)))) = v'
          | Tree.OnDialog i _ =>
              dom (Tree.dialogs_ (obj (snd (Tree.run o (World c t)))))
              = dom (Tree.dialogs_ t)
              /\ Tree.score_ (obj (snd (Tree.run o (World c t)))) = Tree.score_ t
              /\ forall k, k <> i ->
                   Tree.dialogs_ (obj (snd (Tree.run o (World c t)))) !! k
                   = Tree.dialogs_ t !! k
          | _ => Tree.score_ (obj (snd (Tree.run o (World c t)))) = Tree.score_ t
          end).
  { intros (A & B & C & D). auto. }
  clear Hinc. destruct o as [v'|d|i m l|i o]; simpl.
  - repeat split; [done|lia].
  - destruct (Tree.dialogs_ t !! Dialog.id_ d) eqn:E.
    + rewrite (insertDialog_taken _ _ _ _ E). simpl. repeat split; [done|lia].
    + rewrite (insertDialog_free _ _ _ E). simpl. repeat split.
      * apply dom_insert_subseteq.
      * by rewrite map_size_insert_None.
  - destruct (Tree.dialogs_ t !! i) eqn:E.
    + rewrite (insertDialog_fields_taken _ _ _ _ _ _ E). simpl. repeat split; [done|lia].
    + rewrite (insertDialog_fields_free _ _ _ _ _ E). simpl. repeat split.
      * apply dom_insert_subseteq.
      * by rewrite map_size_insert_None.
  - destruct (Tree.dialogs_ t !! i) as [d|] eqn:E.
    + rewrite (on_dialog_present _ _ _ _ _ E). simpl.
      assert (Hdom : dom (<[i := obj (snd (Dialog.run o (World c d)))]> (Tree.dialogs_ t))
                     = dom (Tree.dialogs_ t)).
      { apply dom_insert_lookup_L. by eexists. }
      repeat split.
      * by rewrite Hdom.
      * rewrite map_size_insert_Some; [lia|by eexists].
      * exact Hdom.
      * intros k Hk. by rewrite lookup_insert_ne.
    + rewrite (on_dialog_absent _ _ _ _ E). simpl. repeat split; [done|lia].
Qed.

(** [incrementScore] adds up: two increments in a row are one increment by
    the sum, an increment followed by the opposite increment gives the Tree
    back, and the Dialogs are never touched; all this as long as no addition
    overflows [int]. *)
Theorem incrementScore_adds_up (t t1 : Tree.t) (a b : Z)
    (Ht : in_int (Tree.score_ t) = true)
    (Ha : incrementScore a t = Some t1) :
  Tree.score_ t1 = Tree.score_ t + a
  /\ Tree.dialogs_ t1 = Tree.dialogs_ t
  /\ incrementScore b t1 = incrementScore (a + b) t
  /\ incrementScore (- a) t1 = Some t
  /\ incrementScore 0 t = Some t.
Proof.
  unfold incrementScore in *.
  destruct (in_int (Tree.score_ t + a)) eqn:E; [|done].
  injection Ha as <-. simpl. repeat split.
  - by rewrite Z.add_assoc.
  - replace (Tree.score_ t + a + - a) with (Tree.score_ t) by lia.
    rewrite Ht. by destruct t.
  - rewrite Z.add_0_r, Ht. by destruct t.
Qed.

Lemma incrementScore_adds_up_witness :
  incrementScore 5 Scenario.tree_D1
  = Some (Tree.mk (Tree.dialogs_ Scenario.tree_D1) "D1" "" 5)
  /\ incrementScore (-7) (Tree.mk (Tree.dialogs_ Scenario.tree_D1) "D1" "" 5)
     = incrementScore (5 + -7) Scenario.tree_D1
  /\ incrementScore (-5) (Tree.mk (Tree.dialogs_ Scenario.tree_D1) "D1" "" 5)
     = Some Scenario.tree_D1.
Proof.
  assert (Ha : incrementScore 5 Scenario.tree_D1
               = Some (Tree.mk (Tree.dialogs_ Scenario.tree_D1) "D1" "" 5))
    by (vm_compute; reflexivity).
  destruct (incrementScore_adds_up Scenario.tree_D1 _ 5 (-7) eq_refl Ha)
    as (_ & _ & A & B & _).
  split; [exact Ha|]. split; [exact A | exact B].
Defined.

(** An increment that would leave [int] is the undefined case, in either
    direction, and it is the only one. *)
Theorem incrementScore_defined_iff (t : Tree.t) (a : Z) :
  is_Some (incrementScore a t) <-> int_min <= Tree.score_ t + a <= int_max.
Proof.
  unfold incrementScore, in_int.
  destruct (Z.leb_spec int_min (Tree.score_ t + a));
    destruct (Z.leb_spec (Tree.score_ t + a) int_max); simpl;
    (split; [intros [x Hx]; try discriminate; lia | intros; try lia; by eexists]).
Qed.

(** * Further properties of the logging service *)

(** For every severity, message and console state: [log] throws exactly for
    severity 1 and returns otherwise; it never changes the level, the
    indentation or the object at hand; and it writes (the rendered message,
    appended to what was written before) exactly when the severity lies
    between 2 and the configured level. Hence nothing is ever written at a
    level below 2, the initial level included, and what is written at one
    level is written at every higher one. *)
Theorem log_writes_iff {S : Type} (sev : Z) (msg : string) (args : list string)
    (w : world S) :
  fst (console.log sev msg args w) = (if sev =? 1 then Throw msg else Ret tt)
  /\ obj (snd (console.log sev msg args w)) = obj w
  /\ console_state.level_ (con (snd (console.log sev msg args w)))
     = console_state.level_ (con w)
  /\ console_state.indent_ (con (snd (console.log sev msg args w)))
     = console_state.indent_ (con w)
  /\ console_state.cout (con (snd (console.log sev msg args w)))
     = (if (2 <=? sev) && (sev <=? console_state.level_ (con w))
        then console_state.cout (con w)
             +:+ console.rendered (console_state.indent_ (con w)) msg args
        else console_state.cout (con w))
  /\ (console_state.cout (con (snd (console.log sev msg args w)))
      <> console_state.cout (con w)
      <-> 2 <= sev <= console_state.level_ (con w)).
Proof.
  pose proof (out_writes msg args w) as (_ & _ & _ & Hw).
  unfold console.log, console.out, throw, ret in *. simpl in *.
  destruct (Z.eqb_spec sev 1) as [->|N1]; simpl.
  { repeat split; try done; try lia. }
  destruct (Z.ltb_spec sev 1); destruct (Z.gtb_spec sev (console_state.level_ (con w)));
    destruct (Z.leb_spec 2 sev); destruct (Z.leb_spec sev (console_state.level_ (con w)));
    simpl; try lia; repeat split; try done; try lia.
Qed.

(** After [logLevel(n)] a call of [log] writes exactly when its severity lies
    between 2 and [n], whatever the level was before; after [indent(s)] the
    further arguments of a written message are indented by [s]. *)
Theorem logLevel_then_log {S : Type} (n sev : Z) (s msg : string) (args : list string)
    (w : world S) :
  console_state.cout (con (snd ((let* _ := console.logLevel n in
                                  console.log sev msg args) w)))
  = (if (2 <=? sev) && (sev <=? n)
     then console_state.cout (con w)
          +:+ console.rendered (console_state.indent_ (con w)) msg args
     else console_state.cout (con w))
  /\ console_state.cout (con (snd ((let* _ := console.indent s in
                                     console.log sev msg args) w)))
     = (if (2 <=? sev) && (sev <=? console_state.level_ (con w))
        then console_state.cout (con w) +:+ console.rendered s msg args
        else console_state.cout (con w)).
Proof.
  unfold bind, console.logLevel, console.indent, console.log, console.out, throw, ret.
  simpl. split.
  - destruct (Z.eqb_spec sev 1) as [->|N1]; simpl.
    { by destruct (Z.leb_spec 1 n). }
    destruct (Z.ltb_spec sev 1); destruct (Z.gtb_spec sev n);
      destruct (Z.leb_spec 2 sev); destruct (Z.leb_spec sev n); simpl; try lia; done.
  - destruct (Z.eqb_spec sev 1) as [->|N1]; simpl.
    { by destruct (Z.leb_spec 1 (console_state.level_ (con w))). }
    destruct (Z.ltb_spec sev 1); destruct (Z.gtb_spec sev (console_state.level_ (con w)));
      destruct (Z.leb_spec 2 sev); destruct (Z.leb_spec sev (console_state.level_ (con w)));
      simpl; try lia; done.
Qed.

(** * Further properties of the scanner *)

Lemma string_app_nil_r (a : string) : a +:+ "" = a.
Proof.
  induction a as [|ch a IH]; [done|].
  change (String ch (a +:+ "") = String ch a). by rewrite IH.
Qed.

Lemma string_app_assoc (a b d : string) : (a +:+ b) +:+ d = a +:+ (b +:+ d).
Proof.
  induction a as [|ch a IH]; [done|].
  change (String ch ((a +:+ b) +:+ d) = String ch (a +:+ (b +:+ d))). by rewrite IH.
Qed.

Lemma get_app_r (pre s : string) (k : nat) :
  String.get (String.length pre + k) (pre +:+ s) = String.get k s.
Proof. rewrite Nat.add_comm. symmetry. apply String.append_correct2. Qed.

Lemma get_app_r0 (pre s : string) :
  String.get (String.length pre) (pre +:+ s) = String.get 0 s.
Proof. by rewrite <- (get_app_r pre s 0), Nat.add_0_r. Qed.

(** Moving the character under the iterator into the prefix. *)
Lemma shift_char (pre : string) (ch : ascii) (s : string) :
  pre +:+ String ch s = (pre +:+ String ch "") +:+ s.
Proof. by rewrite string_app_assoc. Qed.

Lemma length_shift (pre : string) (ch : ascii) :
  String.length (pre +:+ String ch "") = S (String.length pre).
Proof. rewrite string_app_length. simpl. lia. Qed.



Section ScannerSteps.
Variable config : configure.t.
Variable c : console_state.t.

(** Called with the iterator at [line.end()], [parseLine] returns at once. *)
Lemma parseLine_at_end line t :
  Parser.parseLine config line (World c (Parser.mk (String.length line) t))
  = (Ret t, World c (Parser.mk (String.length line) t)).
Proof.
  unfold Parser.parseLine, bind. cbn [Parser.parseLine_loop]. unfold bind.
  rewrite at_end_eq. by rewrite Nat.eqb_refl.
Qed.

Lemma parseLine_body_plain_char line i t ch :
  String.get i line = Some ch -> ch <> "$"%char ->
  Parser.parseLine_body config line (World c (Parser.mk i t))
  = (Ret tt,
     World c (Parser.mk (S i)
                (Token.mk (Token.text t +:+ String ch "")
                   (Token.id t) (Token.link t) (Token.isTreeLink t)
                   (Token.hasId t) (Token.hasLink t)))).
Proof.
  intros H0 Hch. pose proof (get_Some_lt _ _ _ H0).
  apply Ascii.eqb_neq in Hch.
  unfold Parser.parseLine_body, bind.
  rewrite (deref_Some _ _ _ _ _ H0). rewrite Hch.
  unfold Parser.text_append, Parser.modify_curr, modify_obj. simpl.
  by rewrite advance_lt by lia.
Qed.

Lemma plain_text_from pre rest t :
  (forall k, String.get k rest <> Some "$"%char) ->
  Parser.parseLine config (pre +:+ rest) (World c (Parser.mk (String.length pre) t))
  = (Ret (Token.mk (Token.text t +:+ rest) (Token.id t) (Token.link t)
            (Token.isTreeLink t) (Token.hasId t) (Token.hasLink t)),
     World c (Parser.mk (String.length (pre +:+ rest))
                (Token.mk (Token.text t +:+ rest) (Token.id t) (Token.link t)
                   (Token.isTreeLink t) (Token.hasId t) (Token.hasLink t)))).
Proof.
  revert pre t. induction rest as [|ch rest IH]; intros pre t Hno.
  - rewrite !string_app_nil_r. rewrite parseLine_at_end. by destruct t.
  - assert (Hch : ch <> "$"%char) by (intros ->; by apply (Hno 0%nat)).
    assert (Hget : String.get (String.length pre) (pre +:+ String ch rest) = Some ch)
      by (by rewrite get_app_r0).
    rewrite (parseLine_after_body _ _ _ _
               (parseLine_body_plain_char _ _ t _ Hget Hch)).
    rewrite (shift_char pre ch rest), <- (length_shift pre ch).
    rewrite IH by (intros k; apply (Hno (S k))).
    simpl. by rewrite !string_app_assoc.
Qed.
End ScannerSteps.

(** Text without ['$'] is copied. If no ['$'] occurs from the iterator to
    the end of the line, [parseLine] returns, having appended exactly those
    characters to the token's text and changed nothing else of the token;
    the iterator ends at [line.end()]. An iterator already at the end (an
    empty line, say) leaves the token as it is. *)
Theorem plain_text_is_copied
    (config : configure.t) (c : console_state.t) (pre rest : string) (t : Token.t)
    (Hplain : forall k, String.get k rest <> Some "$"%char) :
  Parser.parseLine config (pre +:+ rest) (World c (Parser.mk (String.length pre) t))
  = (Ret (Token.mk (Token.text t +:+ rest) (Token.id t) (Token.link t)
            (Token.isTreeLink t) (Token.hasId t) (Token.hasLink t)),
     World c (Parser.mk (String.length (pre +:+ rest))
                (Token.mk (Token.text t +:+ rest) (Token.id t) (Token.link t)
                   (Token.isTreeLink t) (Token.hasId t) (Token.hasLink t))))
  /\ Parser.parseLine config pre (World c (Parser.mk (String.length pre) t))
     = (Ret t, World c (Parser.mk (String.length pre) t)).
Proof. split; [by apply plain_text_from | apply parseLine_at_end]. Qed.

Lemma plain_text_is_copied_witness :
  Parser.parseLine Scenario.trim_on "$[a]hi there"
    (World console_state.initial (Parser.mk 4 (Token.mk "say " "a" "" false true false)))
  = (Ret (Token.mk "say hi there" "a" "" false true false),
     World console_state.initial
       (Parser.mk 12 (Token.mk "say hi there" "a" "" false true false))).
Proof.
  assert (Hplain : forall k, String.get k "hi there" <> Some "$"%char).
  { intros k. do 8 (destruct k as [|k]; [discriminate|]). discriminate. }
  exact (proj1 (plain_text_is_copied Scenario.trim_on console_state.initial "$[a]" "hi there"
                  (Token.mk "say " "a" "" false true false) Hplain)).
Defined.

Section MarkerLoops.
Variable c : console_state.t.

Lemma length_app_cons pre b s :
  String.length (pre +:+ String b s) = (String.length pre + S (String.length s))%nat.
Proof. by rewrite string_app_length. Qed.

(** The content loop on a marker that is closed. The character the iterator
    stands on at the call is not looked at. *)
Lemma marker_loop_closed content :
  forall pre b rest acc fuel t,
    (forall k, String.get k content <> Some "]"%char) ->
    (String.length content < fuel)%nat ->
    Parser.marker_loop (pre +:+ String b (content +:+ String "]" rest)) fuel acc
      (World c (Parser.mk (String.length pre) t))
    = (Ret (acc +:+ content),
       World c (Parser.mk (String.length pre + 1 + String.length content) t)).
Proof.
  induction content as [|ch content IH]; intros pre b rest acc fuel t Hno Hf;
    (destruct fuel as [|fuel]; [simpl in Hf; lia|]);
    cbn [Parser.marker_loop]; unfold bind.
  - rewrite advance_lt by (rewrite length_app_cons; simpl; lia).
    rewrite at_end_eq.
    destruct (Nat.eqb_spec (S (String.length pre))
                (String.length (pre +:+ String b ("" +:+ String "]" rest)))) as [E|_].
    { rewrite length_app_cons in E. simpl in E. lia. }
    rewrite (deref_Some _ _ _ _ "]"%char).
    2: { rewrite (shift_char pre b), <- (length_shift pre b). by rewrite get_app_r0. }
    simpl. rewrite string_app_nil_r. do 3 f_equal. lia.
  - assert (Hch : ch <> "]"%char) by (intros ->; by apply (Hno 0%nat)).
    apply Ascii.eqb_neq in Hch.
    rewrite advance_lt by (rewrite length_app_cons; simpl; lia).
    rewrite at_end_eq.
    destruct (Nat.eqb_spec (S (String.length pre))
                (String.length (pre +:+ String b (String ch content +:+ String "]" rest))))
      as [E|_].
    { rewrite length_app_cons in E. simpl in E. lia. }
    rewrite (deref_Some _ _ _ _ ch).
    2: { rewrite (shift_char pre b), <- (length_shift pre b). by rewrite get_app_r0. }
    rewrite Hch.
    change (String ch content +:+ String "]" rest)
      with (String ch (content +:+ String "]" rest)).
    rewrite (shift_char pre b), <- (length_shift pre b).
    rewrite IH; [|intros k; apply (Hno (S k))|simpl in Hf; lia].
    unfold Parser.push_back. rewrite string_app_assoc. simpl.
    do 3 f_equal. rewrite length_shift. lia.
Qed.

(** The content loop on a marker that is not closed: it stops at
    [line.end()]. *)
Lemma marker_loop_open content :
  forall pre b acc fuel t,
    (forall k, String.get k content <> Some "]"%char) ->
    (String.length content < fuel)%nat ->
    Parser.marker_loop (pre +:+ String b content) fuel acc
      (World c (Parser.mk (String.length pre) t))
    = (Ret (acc +:+ content),
       World c (Parser.mk (String.length (pre +:+ String b content)) t)).
Proof.
  induction content as [|ch content IH]; intros pre b acc fuel t Hno Hf;
    (destruct fuel as [|fuel]; [simpl in Hf; lia|]);
    cbn [Parser.marker_loop]; unfold bind.
  - rewrite advance_lt by (rewrite length_app_cons; simpl; lia).
    rewrite at_end_eq.
    destruct (Nat.eqb_spec (S (String.length pre))
                (String.length (pre +:+ String b ""))) as [E|E].
    2: { rewrite length_app_cons in E. simpl in E. lia. }
    rewrite string_app_nil_r. by rewrite E.
  - assert (Hch : ch <> "]"%char) by (intros ->; by apply (Hno 0%nat)).
    apply Ascii.eqb_neq in Hch.
    rewrite advance_lt by (rewrite length_app_cons; simpl; lia).
    rewrite at_end_eq.
    destruct (Nat.eqb_spec (S (String.length pre))
                (String.length (pre +:+ String b (String ch content)))) as [E|_].
    { rewrite length_app_cons in E. simpl in E. lia. }
    rewrite (deref_Some _ _ _ _ ch).
    2: { rewrite (shift_char pre b), <- (length_shift pre b). by rewrite get_app_r0. }
    rewrite Hch.
    rewrite (shift_char pre b), <- (length_shift pre b).
    rewrite IH; [|intros k; apply (Hno (S k))|simpl in Hf; lia].
    unfold Parser.push_back. by rewrite string_app_assoc.
Qed.

(** The trim loop started on the closing bracket [b]: it runs over the
    spaces and stops on the first other character, or at [line.end()]. *)
Lemma trim_loop_spaces sp :
  forall pre b rest fuel t,
    (forall k ch, String.get k sp = Some ch -> ch = " "%char) ->
    String.get 0 rest <> Some " "%char ->
    (String.length sp < fuel)%nat ->
    Parser.trim_loop (pre +:+ String b (sp +:+ rest)) fuel
      (World c (Parser.mk (String.length pre) t))
    = (Ret tt, World c (Parser.mk (String.length pre + 1 + String.length sp) t)).
Proof.
  induction sp as [|s sp IH]; intros pre b rest fuel t Hsp Hrest Hf;
    (destruct fuel as [|fuel]; [simpl in Hf; lia|]);
    cbn [Parser.trim_loop]; unfold bind.
  - change ("" +:+ rest) with rest.
    rewrite advance_lt by (rewrite length_app_cons; simpl; lia).
    rewrite at_end_eq.
    replace (String.length pre + 1 + String.length "")%nat
      with (S (String.length pre)) by (simpl; lia).
    destruct (Nat.eqb_spec (S (String.length pre))
                (String.length (pre +:+ String b rest))) as [E|E]; [done|].
    destruct rest as [|r rest].
    { rewrite length_app_cons in E. simpl in E. lia. }
    rewrite (deref_Some _ _ _ _ r).
    2: { rewrite (shift_char pre b), <- (length_shift pre b). by rewrite get_app_r0. }
    assert (Hr : Ascii.eqb r " " = false).
    { apply Ascii.eqb_neq. intros ->. by apply Hrest. }
    by rewrite Hr.
  - assert (Hs : s = " "%char) by (by apply (Hsp 0%nat)). subst s.
    change (String " " sp +:+ rest) with (String " " (sp +:+ rest)).
    rewrite advance_lt by (rewrite length_app_cons; simpl; lia).
    rewrite at_end_eq.
    destruct (Nat.eqb_spec (S (String.length pre))
                (String.length (pre +:+ String b (String " " (sp +:+ rest))))) as [E|_].
    { rewrite length_app_cons in E. simpl in E. lia. }
    rewrite (deref_Some _ _ _ _ " "%char).
    2: { rewrite (shift_char pre b), <- (length_shift pre b). by rewrite get_app_r0. }
    simpl. rewrite (shift_char pre b), <- (length_shift pre b).
    rewrite IH; [|intros k ch; apply (Hsp (S k))|exact Hrest|simpl in Hf; lia].
    do 3 f_equal. rewrite length_shift. simpl. lia.
Qed.
End MarkerLoops.

Lemma regroup_closed pre b content tl :
  pre +:+ String b (content +:+ String "]" tl)
  = (pre +:+ String b content) +:+ String "]" tl.
Proof. by rewrite string_app_assoc. Qed.

Lemma parseMarkerValue_closed_value
    (config : configure.t) (c : console_state.t)
    (pre : string) (b : ascii) (content sp rest : string) (t : Token.t) :
  (forall k, String.get k content <> Some "]"%char) ->
  (forall k ch, String.get k sp = Some ch -> ch = " "%char) ->
  String.get 0 rest <> Some " "%char ->
  Parser.parseMarkerValue config
    (pre +:+ String b (content +:+ String "]" (sp +:+ rest)))
    (World c (Parser.mk (String.length pre) t))
  = (Ret content,
     World c (Parser.mk
                (if configure.trim_whitespaces_behind_markers config
                 then String.length pre + String.length content + String.length sp + 2
                 else String.length pre + String.length content + 1)%nat t)).
Proof.
  intros Hno Hsp Hrest.
  unfold Parser.parseMarkerValue, bind.
  rewrite marker_loop_closed; [|exact Hno|].
  2: { rewrite length_app_cons, string_app_length. lia. }
  cbv beta iota. destruct (configure.trim_whitespaces_behind_markers config).
  - rewrite regroup_closed.
    replace (String.length pre + 1 + String.length content)%nat
      with (String.length (pre +:+ String b content))
      by (rewrite length_app_cons; lia).
    rewrite trim_loop_spaces; [|exact Hsp|exact Hrest|].
    2: { rewrite (length_app_cons _ "]"), !string_app_length. lia. }
    unfold ret. do 3 f_equal. rewrite length_app_cons. lia.
  - unfold ret. do 3 f_equal. lia.
Qed.

(** [parseMarkerValue] on a closed marker. Called with the iterator on any
    character [b] (the opening bracket is not looked at again) followed by
    [content] without [']'] and then [']']: it returns [content] and leaves
    the token and the console alone. With trimming disabled the iterator is
    left on the closing [']'], as the function's comment says; with trimming
    enabled it is left behind the spaces that follow the [']'], on the first
    other character or at [line.end()]. *)
Theorem parseMarkerValue_on_closed_marker
    (config : configure.t) (c : console_state.t)
    (pre : string) (b : ascii) (content sp rest : string) (t : Token.t)
    (Hno : forall k, String.get k content <> Some "]"%char)
    (Hsp : forall k ch, String.get k sp = Some ch -> ch = " "%char)
    (Hrest : String.get 0 rest <> Some " "%char) :
  Parser.parseMarkerValue config
    (pre +:+ String b (content +:+ String "]" (sp +:+ rest)))
    (World c (Parser.mk (String.length pre) t))
  = (Ret content,
     World c (Parser.mk
                (if configure.trim_whitespaces_behind_markers config
                 then String.length pre + String.length content + String.length sp + 2
                 else String.length pre + String.length content + 1)%nat t))
  /\ String.get (String.length pre + String.length content + 1)
       (pre +:+ String b (content +:+ String "]" (sp +:+ rest))) = Some "]"%char
  /\ String.get (String.length pre + String.length content + String.length sp + 2)
       (pre +:+ String b (content +:+ String "]" (sp +:+ rest))) = String.get 0 rest.
Proof.
  split; [|split].
  - by apply parseMarkerValue_closed_value.
  - rewrite regroup_closed.
    replace (String.length pre + String.length content + 1)%nat
      with (String.length (pre +:+ String b content))
      by (rewrite length_app_cons; lia).
    by rewrite get_app_r0.
  - rewrite regroup_closed, (shift_char _ "]"), <- string_app_assoc.
    replace (String.length pre + String.length content + String.length sp + 2)%nat
      with (String.length (((pre +:+ String b content) +:+ String "]" "") +:+ sp)).
    + by rewrite get_app_r0.
    + rewrite !string_app_length. simpl. lia.
Qed.

Lemma parseMarkerValue_on_closed_marker_witness :
  Parser.parseMarkerValue Scenario.trim_off "$[id]  x"
    (World console_state.initial (Parser.mk 1 Token.fresh))
  = (Ret "id", World console_state.initial (Parser.mk 4 Token.fresh))
  /\ Parser.parseMarkerValue Scenario.trim_on "$[id]  x"
       (World console_state.initial (Parser.mk 1 Token.fresh))
     = (Ret "id", World console_state.initial (Parser.mk 7 Token.fresh)).
Proof.
  assert (Hno : forall k, String.get k "id" <> Some "]"%char).
  { intros k. do 2 (destruct k as [|k]; [discriminate|]). discriminate. }
  assert (Hsp : forall k ch, String.get k "  " = Some ch -> ch = " "%char).
  { intros k ch. do 2 (destruct k as [|k]; [by intros [= <-]|]). discriminate. }
  assert (Hrest : String.get 0 "x" <> Some " "%char) by discriminate.
  split.
  - exact (proj1 (parseMarkerValue_on_closed_marker Scenario.trim_off
                    console_state.initial "$" "[" "id" "  " "x" Token.fresh Hno Hsp Hrest)).
  - exact (proj1 (parseMarkerValue_on_closed_marker Scenario.trim_on
                    console_state.initial "$" "[" "id" "  " "x" Token.fresh Hno Hsp Hrest)).
Defined.

(** [parseMarkerValue] on a marker that is not closed. With trimming
    disabled it returns everything up to the end of the line, the iterator
    at [line.end()]; with trimming enabled the trim loop then increments the
    iterator at [line.end()]. *)
Theorem parseMarkerValue_on_open_marker
    (config : configure.t) (c : console_state.t)
    (pre : string) (b : ascii) (content : string) (t : Token.t)
    (Hno : forall k, String.get k content <> Some "]"%char) :
  Parser.parseMarkerValue config (pre +:+ String b content)
    (World c (Parser.mk (String.length pre) t))
  = (if configure.trim_whitespaces_behind_markers config
     then Undefined AdvancePastEnd else Ret content,
     World c (Parser.mk (String.length (pre +:+ String b content)) t)).
Proof.
  unfold Parser.parseMarkerValue, bind.
  rewrite marker_loop_open; [|exact Hno|].
  2: { rewrite length_app_cons. lia. }
  cbv beta iota. destruct (configure.trim_whitespaces_behind_markers config); [|done].
  cbn [Parser.trim_loop]. unfold bind. by rewrite advance_ge.
Qed.

Lemma parseMarkerValue_on_open_marker_witness :
  Parser.parseMarkerValue Scenario.trim_off "$[abc"
    (World console_state.initial (Parser.mk 1 Token.fresh))
  = (Ret "abc", World console_state.initial (Parser.mk 5 Token.fresh))
  /\ Parser.parseMarkerValue Scenario.trim_on "$[abc"
       (World console_state.initial (Parser.mk 1 Token.fresh))
     = (Undefined AdvancePastEnd, World console_state.initial (Parser.mk 5 Token.fresh)).
Proof.
  assert (Hno : forall k, String.get k "abc" <> Some "]"%char).
  { intros k. do 3 (destruct k as [|k]; [discriminate|]). discriminate. }
  split.
  - exact (parseMarkerValue_on_open_marker Scenario.trim_off console_state.initial
             "$" "[" "abc" Token.fresh Hno).
  - exact (parseMarkerValue_on_open_marker Scenario.trim_on console_state.initial
             "$" "[" "abc" Token.fresh Hno).
Defined.

Section MarkerSteps.
Variable config : configure.t.
Variable line : string.

(** The iteration at an id marker of a token without id, given what
    [parseMarkerValue] returns: the id is stored, then the closing [it++]
    runs, inside the line or at its end. *)
Lemma first_id_marker_sets c i t v c' p :
  String.get i line = Some "$"%char ->
  String.get (S i) line = Some "["%char ->
  Token.hasId t = false ->
  Parser.parseMarkerValue config line (World c (Parser.mk (S i) t))
  = (Ret v, World c' (Parser.mk p t)) ->
  Parser.parseLine_body config line (World c (Parser.mk i t))
  = (if (p <? String.length line)%nat then Ret tt else Undefined AdvancePastEnd,
     World c' (Parser.mk (if (p <? String.length line)%nat then S p else p)
                 (Token.mk (Token.text t) v (Token.link t) (Token.isTreeLink t)
                    true (Token.hasLink t)))).
Proof.
  intros H0 H1 Hid Hv. pose proof (get_Some_lt _ _ _ H1).
  unfold Parser.parseLine_body, bind.
  rewrite (deref_Some _ _ _ _ _ H0). simpl.
  rewrite advance_lt by lia. rewrite (deref_Some _ _ _ _ _ H1). simpl.
  rewrite Hv. simpl. rewrite Hid. simpl.
  unfold Parser.advance. simpl. by destruct (p <? String.length line)%nat.
Qed.

Lemma first_link_marker_sets c i t l v c' p :
  String.get i line = Some "$"%char ->
  String.get (S i) line = Some l -> Parser.is_link_letter l = true ->
  String.get (S (S i)) line = Some "["%char ->
  Token.hasLink t = false ->
  Parser.parseMarkerValue config line (World c (Parser.mk (S (S i)) t))
  = (Ret v, World c' (Parser.mk p t)) ->
  Parser.parseLine_body config line (World c (Parser.mk i t))
  = (if (p <? String.length line)%nat then Ret tt else Undefined AdvancePastEnd,
     World c' (Parser.mk (if (p <? String.length line)%nat then S p else p)
                 (Token.mk (Token.text t) (Token.id t) v
                    (Ascii.eqb l "T" || Ascii.eqb l "t")
                    (Token.hasId t) true))).
Proof.
  intros H0 H1 Hl H2 Hlk Hv.
  pose proof (get_Some_lt _ _ _ H1). pose proof (get_Some_lt _ _ _ H2).
  assert (Hb : Ascii.eqb l "[" = false).
  { apply Ascii.eqb_neq. intros ->. discriminate Hl. }
  unfold Parser.parseLine_body, bind.
  rewrite (deref_Some _ _ _ _ _ H0). simpl.
  rewrite advance_lt by lia. rewrite (deref_Some _ _ _ _ _ H1).
  rewrite Hb, Hl. rewrite advance_lt by lia. rewrite (deref_Some _ _ _ _ _ H2). simpl.
  rewrite Hv. simpl. rewrite Hlk. simpl.
  unfold Parser.advance.
  destruct (Ascii.eqb l "T" || Ascii.eqb l "t"); simpl;
    by destruct (p <? String.length line)%nat.
Qed.

(** An iteration that throws or leaves defined behaviour ends the call. *)
Lemma parseLine_after_throw w e w1 :
  Parser.it (obj w) <> String.length line ->
  Parser.parseLine_body config line w = (Throw e, w1) ->
  Parser.parseLine config line w = (Throw e, w1).
Proof.
  intros Hi Hb. unfold Parser.parseLine, bind. cbn [Parser.parseLine_loop].
  unfold bind. rewrite (surjective_pairing (Parser.at_end line w)). simpl.
  destruct (Nat.eqb_spec (Parser.it (obj w)) (String.length line)); [done|].
  by rewrite Hb.
Qed.

Lemma parseLine_after_undefined w u w1 :
  Parser.it (obj w) <> String.length line ->
  Parser.parseLine_body config line w = (Undefined u, w1) ->
  Parser.parseLine config line w = (Undefined u, w1).
Proof.
  intros Hi Hb. unfold Parser.parseLine, bind. cbn [Parser.parseLine_loop].
  unfold bind. rewrite (surjective_pairing (Parser.at_end line w)). simpl.
  destruct (Nat.eqb_spec (Parser.it (obj w)) (String.length line)); [done|].
  by rewrite Hb.
Qed.
End MarkerSteps.

Section IdMarker.
Variable config : configure.t.
Variable c : console_state.t.
Variable pre content : string.
Hypothesis Hno : forall k, String.get k content <> Some "]"%char.

(** The line [pre $[content] tail]. *)
Let id_line (tail : string) : string :=
  pre +:+ String "$" (String "[" (content +:+ String "]" tail)).

Lemma id_line_dollar tail : String.get (String.length pre) (id_line tail) = Some "$"%char.
Proof. unfold id_line. by rewrite get_app_r0. Qed.

Lemma id_line_bracket tail :
  String.get (S (String.length pre)) (id_line tail) = Some "["%char.
Proof.
  unfold id_line. rewrite (shift_char pre "$"), <- (length_shift pre "$").
  by rewrite get_app_r0.
Qed.

Lemma id_line_length tail :
  String.length (id_line tail)
  = (String.length pre + String.length content + String.length tail + 3)%nat.
Proof.
  unfold id_line. rewrite length_app_cons. simpl. rewrite string_app_length. simpl. lia.
Qed.

Lemma id_line_value_no_trim tail t :
  configure.trim_whitespaces_behind_markers config = false ->
  Parser.parseMarkerValue config (id_line tail)
    (World c (Parser.mk (S (String.length pre)) t))
  = (Ret content,
     World c (Parser.mk (String.length pre + String.length content + 2) t)).
Proof.
  intros Htrim. unfold id_line, Parser.parseMarkerValue, bind.
  rewrite (shift_char pre "$"), <- (length_shift pre "$").
  rewrite marker_loop_closed; [|exact Hno|].
  2: { rewrite !string_app_length. simpl. rewrite !string_app_length. simpl. lia. }
  cbv beta iota. rewrite Htrim. unfold ret. do 3 f_equal. rewrite length_shift. lia.
Qed.

Lemma id_line_value_trim sp rest t :
  configure.trim_whitespaces_behind_markers config = true ->
  (forall k ch, String.get k sp = Some ch -> ch = " "%char) ->
  String.get 0 rest <> Some " "%char ->
  Parser.parseMarkerValue config (id_line (sp +:+ rest))
    (World c (Parser.mk (S (String.length pre)) t))
  = (Ret content,
     World c (Parser.mk (String.length pre + String.length content + String.length sp + 3) t)).
Proof.
  intros Htrim Hsp Hrest. unfold id_line.
  rewrite (shift_char pre "$"), <- (length_shift pre "$").
  rewrite (parseMarkerValue_closed_value config c (pre +:+ String "$" "") "["
             content sp rest t Hno Hsp Hrest).
  rewrite Htrim. do 3 f_equal. rewrite length_shift. lia.
Qed.
End IdMarker.

Lemma id_marker_stored_no_trim
    (config : configure.t) (c : console_state.t) (pre content tail : string) (t : Token.t) :
  configure.trim_whitespaces_behind_markers config = false ->
  (forall k, String.get k content <> Some "]"%char) ->
  Token.hasId t = false ->
  Parser.parseLine config
    (pre +:+ String "$" (String "[" (content +:+ String "]" tail)))
    (World c (Parser.mk (String.length pre) t))
  = Parser.parseLine config
      (pre +:+ String "$" (String "[" (content +:+ String "]" tail)))
      (World c (Parser.mk (String.length pre + String.length content + 3)
                  (Token.mk (Token.text t) content (Token.link t) (Token.isTreeLink t)
                     true (Token.hasLink t)))).
Proof.
  intros Htrim Hno Ht.
  pose proof (id_line_length pre content tail) as Hlen.
  apply parseLine_after_body.
  rewrite (first_id_marker_sets config _ c _ t content c
             (String.length pre + String.length content + 2)
             (id_line_dollar _ _ _) (id_line_bracket _ _ _) Ht
             (id_line_value_no_trim config c pre content Hno tail t Htrim)).
  destruct (Nat.ltb_spec (String.length pre + String.length content + 2)
              (String.length
                 (pre +:+ String "$" (String "[" (content +:+ String "]" tail)))));
    [|lia].
  do 3 f_equal. lia.
Qed.

Lemma id_marker_rejected_no_trim
    (config : configure.t) (c : console_state.t) (pre content tail : string) (u : Token.t) :
  configure.trim_whitespaces_behind_markers config = false ->
  (forall k, String.get k content <> Some "]"%char) ->
  Token.hasId u = true ->
  Parser.parseLine config
    (pre +:+ String "$" (String "[" (content +:+ String "]" tail)))
    (World c (Parser.mk (String.length pre) u))
  = (Throw ("found another id within token: " +:+ content),
     World c (Parser.mk (String.length pre + String.length content + 2)
                (Token.mk (Token.text u) (Token.id u) (Token.link u)
                   (Token.isTreeLink u) false (Token.hasLink u)))).
Proof.
  intros Htrim Hno Hu.
  pose proof (id_line_length pre content tail) as Hlen.
  apply parseLine_after_throw; [simpl; lia|].
  apply second_id_marker_throws;
    [apply id_line_dollar | apply id_line_bracket | exact Hu |].
  by apply id_line_value_no_trim.
Qed.

Lemma id_marker_stored_trim
    (config : configure.t) (c : console_state.t)
    (pre content sp : string) (ch : ascii) (rest : string) (t : Token.t) :
  configure.trim_whitespaces_behind_markers config = true ->
  (forall k, String.get k content <> Some "]"%char) ->
  (forall k s, String.get k sp = Some s -> s = " "%char) ->
  ch <> " "%char ->
  Token.hasId t = false ->
  Parser.parseLine config
    (pre +:+ String "$" (String "[" (content +:+ String "]" (sp +:+ String ch rest))))
    (World c (Parser.mk (String.length pre) t))
  = Parser.parseLine config
      (pre +:+ String "$" (String "[" (content +:+ String "]" (sp +:+ String ch rest))))
      (World c (Parser.mk (String.length pre + String.length content + String.length sp + 4)
                  (Token.mk (Token.text t) content (Token.link t) (Token.isTreeLink t)
                     true (Token.hasLink t)))).
Proof.
  intros Htrim Hno Hsp Hch Ht.
  assert (Hrest : String.get 0 (String ch rest) <> Some " "%char)
    by (simpl; congruence).
  pose proof (id_line_length pre content (sp +:+ String ch rest)) as Hlen.
  rewrite string_app_length in Hlen. simpl in Hlen.
  apply parseLine_after_body.
  rewrite (first_id_marker_sets config _ c _ t content c _
             (id_line_dollar _ _ _) (id_line_bracket _ _ _) Ht
             (id_line_value_trim config c pre content Hno sp _ t Htrim Hsp Hrest)).
  destruct (Nat.ltb_spec
              (String.length pre + String.length content + String.length sp + 3)
              (String.length
                 (pre +:+ String "$"
                    (String "[" (content +:+ String "]" (sp +:+ String ch rest))))));
    [|lia].
  do 3 f_equal. lia.
Qed.

(** An id marker, trimming disabled. Standing on the ['$'] of
    [$[content]], [content] without [']'], whatever follows the marker: a
    token without id gets [content] as its id, nothing else of it changes, and
    the scan goes on right behind the [']']; for a token that has an id
    [parseLine] throws, the token keeping its id, text and link, with the
    flag [hasId] flipped to false and the iterator on the [']']. *)
Theorem id_marker_without_trimming
    (config : configure.t) (c : console_state.t)
    (pre content tail : string) (t u : Token.t)
    (Htrim : configure.trim_whitespaces_behind_markers config = false)
    (Hno : forall k, String.get k content <> Some "]"%char)
    (Ht : Token.hasId t = false) (Hu : Token.hasId u = true) :
  Parser.parseLine config
    (pre +:+ String "$" (String "[" (content +:+ String "]" tail)))
    (World c (Parser.mk (String.length pre) t))
  = Parser.parseLine config
      (pre +:+ String "$" (String "[" (content +:+ String "]" tail)))
      (World c (Parser.mk (String.length pre + String.length content + 3)
                  (Token.mk (Token.text t) content (Token.link t) (Token.isTreeLink t)
                     true (Token.hasLink t))))
  /\ Parser.parseLine config
       (pre +:+ String "$" (String "[" (content +:+ String "]" tail)))
       (World c (Parser.mk (String.length pre) u))
     = (Throw ("found another id within token: " +:+ content),
        World c (Parser.mk (String.length pre + String.length content + 2)
                   (Token.mk (Token.text u) (Token.id u) (Token.link u)
                      (Token.isTreeLink u) false (Token.hasLink u)))).
Proof.
  split; [by apply id_marker_stored_no_trim | by apply id_marker_rejected_no_trim].
Qed.

Lemma id_marker_without_trimming_witness :
  Parser.parseLine Scenario.trim_off "say $[a] hi"
    (World console_state.initial (Parser.mk 4 (Token.mk "say " "" "" false false false)))
  = Parser.parseLine Scenario.trim_off "say $[a] hi"
      (World console_state.initial (Parser.mk 8 (Token.mk "say " "a" "" false true false)))
  /\ Parser.parseLine Scenario.trim_off "say $[a] hi"
       (World console_state.initial (Parser.mk 4 (Token.mk "say " "old" "" false true false)))
     = (Throw "found another id within token: a",
        World console_state.initial (Parser.mk 7 (Token.mk "say " "old" "" false false false))).
Proof.
  assert (Hno : forall k, String.get k "a" <> Some "]"%char).
  { intros k. destruct k as [|k]; [discriminate|]. discriminate. }
  exact (id_marker_without_trimming Scenario.trim_off console_state.initial
           "say " "a" " hi" (Token.mk "say " "" "" false false false)
           (Token.mk "say " "old" "" false true false) eq_refl Hno eq_refl eq_refl).
Defined.

(** An id marker, trimming enabled. Standing on the ['$'] of [$[content]]
    followed by spaces [sp] and then a character [ch] that is no space: a
    token without id gets [content] as its id and the scan goes on behind
    [ch], which is never appended to the text; for a token that has an id
    [parseLine] throws with the iterator on [ch]. If the line ends with the
    marker and the spaces, the id is stored and the iterator is then advanced
    past [line.end()]. *)
Theorem id_marker_with_trimming
    (config : configure.t) (c : console_state.t)
    (pre content sp : string) (ch : ascii) (rest : string) (t u : Token.t)
    (Htrim : configure.trim_whitespaces_behind_markers config = true)
    (Hno : forall k, String.get k content <> Some "]"%char)
    (Hsp : forall k s, String.get k sp = Some s -> s = " "%char)
    (Hch : ch <> " "%char)
    (Ht : Token.hasId t = false) (Hu : Token.hasId u = true) :
  Parser.parseLine config
    (pre +:+ String "$" (String "[" (content +:+ String "]" (sp +:+ String ch rest))))
    (World c (Parser.mk (String.length pre) t))
  = Parser.parseLine config
      (pre +:+ String "$" (String "[" (content +:+ String "]" (sp +:+ String ch rest))))
      (World c (Parser.mk (String.length pre + String.length content + String.length sp + 4)
                  (Token.mk (Token.text t) content (Token.link t) (Token.isTreeLink t)
                     true (Token.hasLink t))))
  /\ Parser.parseLine config
       (pre +:+ String "$" (String "[" (content +:+ String "]" (sp +:+ String ch rest))))
       (World c (Parser.mk (String.length pre) u))
     = (Throw ("found another id within token: " +:+ content),
        World c (Parser.mk (String.length pre + String.length content + String.length sp + 3)
                   (Token.mk (Token.text u) (Token.id u) (Token.link u)
                      (Token.isTreeLink u) false (Token.hasLink u))))
  /\ Parser.parseLine config
       (pre +:+ String "$" (String "[" (content +:+ String "]" (sp +:+ ""))))
       (World c (Parser.mk (String.length pre) t))
     = (Undefined AdvancePastEnd,
        World c (Parser.mk (String.length pre + String.length content + String.length sp + 3)
                   (Token.mk (Token.text t) content (Token.link t) (Token.isTreeLink t)
                      true (Token.hasLink t)))).
Proof.
  assert (Hrest : String.get 0 (String ch rest) <> Some " "%char)
    by (simpl; congruence).
  assert (Hnil : String.get 0 "" <> Some " "%char) by discriminate.
  pose proof (id_line_length pre content (sp +:+ String ch rest)) as Hlen.
  pose proof (id_line_length pre content (sp +:+ "")) as Hlen'.
  rewrite string_app_length in Hlen, Hlen'. simpl in Hlen, Hlen'.
  split; [|split].
  - by apply id_marker_stored_trim.
  - apply parseLine_after_throw; [simpl; lia|].
    apply second_id_marker_throws;
      [apply id_line_dollar | apply id_line_bracket | exact Hu |].
    by apply id_line_value_trim.
  - apply parseLine_after_undefined; [simpl; lia|].
    rewrite (first_id_marker_sets config _ c _ t content c _
               (id_line_dollar _ _ _) (id_line_bracket _ _ _) Ht
               (id_line_value_trim config c pre content Hno sp _ t Htrim Hsp Hnil)).
    destruct (Nat.ltb_spec
                (String.length pre + String.length content + String.length sp + 3)
                (String.length
                   (pre +:+ String "$" (String "[" (content +:+ String "]" (sp +:+ ""))))));
      [lia|done].
Qed.

Lemma id_marker_with_trimming_witness :
  Parser.parseLine Scenario.trim_on "say $[a]  hi"
    (World console_state.initial (Parser.mk 4 (Token.mk "say " "" "" false false false)))
  = Parser.parseLine Scenario.trim_on "say $[a]  hi"
      (World console_state.initial (Parser.mk 11 (Token.mk "say " "a" "" false true false)))
  /\ Parser.parseLine Scenario.trim_on "say $[a]  "
       (World console_state.initial (Parser.mk 4 (Token.mk "say " "" "" false false false)))
     = (Undefined AdvancePastEnd,
        World console_state.initial (Parser.mk 10 (Token.mk "say " "a" "" false true false))).
Proof.
  assert (Hno : forall k, String.get k "a" <> Some "]"%char).
  { intros k. destruct k as [|k]; [discriminate|]. discriminate. }
  assert (Hsp : forall k s, String.get k "  " = Some s -> s = " "%char).
  { intros k s. do 2 (destruct k as [|k]; [by intros [= <-]|]). discriminate. }
  assert (Hch : "h"%char <> " "%char) by discriminate.
  destruct (id_marker_with_trimming Scenario.trim_on console_state.initial
              "say " "a" "  " "h" "i" (Token.mk "say " "" "" false false false)
              (Token.mk "say " "old" "" false true false) eq_refl Hno Hsp Hch eq_refl eq_refl)
    as (A & _ & B).
  split; [exact A | exact B].
Defined.

Section LinkMarker.
Variable config : configure.t.
Variable c : console_state.t.
Variable pre content : string.
Variable l : ascii.
Hypothesis Hno : forall k, String.get k content <> Some "]"%char.

(** The line [pre $l[content] tail]. *)
Let link_line (tail : string) : string :=
  pre +:+ String "$" (String l (String "[" (content +:+ String "]" tail))).

Lemma link_line_regroup tail :
  link_line tail
  = ((pre +:+ String "$" "") +:+ String l "") +:+ String "[" (content +:+ String "]" tail).
Proof. unfold link_line. by rewrite !string_app_assoc. Qed.

Lemma link_line_dollar tail :
  String.get (String.length pre) (link_line tail) = Some "$"%char.
Proof. unfold link_line. by rewrite get_app_r0. Qed.

Lemma link_line_letter tail :
  String.get (S (String.length pre)) (link_line tail) = Some l.
Proof.
  unfold link_line. rewrite (shift_char pre "$"), <- (length_shift pre "$").
  by rewrite get_app_r0.
Qed.

Lemma link_line_bracket tail :
  String.get (S (S (String.length pre))) (link_line tail) = Some "["%char.
Proof.
  rewrite link_line_regroup, <- (length_shift pre "$"), <- (length_shift _ l).
  by rewrite get_app_r0.
Qed.

Lemma link_line_length tail :
  String.length (link_line tail)
  = (String.length pre + String.length content + String.length tail + 4)%nat.
Proof.
  unfold link_line. rewrite length_app_cons. simpl. rewrite string_app_length. simpl. lia.
Qed.

Lemma link_line_value_no_trim tail t :
  configure.trim_whitespaces_behind_markers config = false ->
  Parser.parseMarkerValue config (link_line tail)
    (World c (Parser.mk (S (S (String.length pre))) t))
  = (Ret content,
     World c (Parser.mk (String.length pre + String.length content + 3) t)).
Proof.
  intros Htrim. rewrite link_line_regroup.
  rewrite <- (length_shift pre "$"), <- (length_shift _ l).
  unfold Parser.parseMarkerValue, bind.
  rewrite marker_loop_closed; [|exact Hno|].
  2: { rewrite !string_app_length. simpl. rewrite !string_app_length. simpl. lia. }
  cbv beta iota. rewrite Htrim. unfold ret. do 3 f_equal. rewrite !length_shift. lia.
Qed.

Lemma link_line_value_trim sp rest t :
  configure.trim_whitespaces_behind_markers config = true ->
  (forall k ch, String.get k sp = Some ch -> ch = " "%char) ->
  String.get 0 rest <> Some " "%char ->
  Parser.parseMarkerValue config (link_line (sp +:+ rest))
    (World c (Parser.mk (S (S (String.length pre))) t))
  = (Ret content,
     World c (Parser.mk (String.length pre + String.length content + String.length sp + 4) t)).
Proof.
  intros Htrim Hsp Hrest. rewrite link_line_regroup.
  rewrite <- (length_shift pre "$"), <- (length_shift _ l).
  rewrite (parseMarkerValue_closed_value config c
             ((pre +:+ String "$" "") +:+ String l "") "["
             content sp rest t Hno Hsp Hrest).
  rewrite Htrim. do 3 f_equal. rewrite !length_shift. lia.
Qed.
End LinkMarker.

(** A link marker, trimming disabled. Standing on the ['$'] of
    [$l[content]], [l] one of [T t D d] and [content] without [']'],
    whatever follows the marker: a token without link gets [content] as its
    link, of kind tree for ['T'] and ['t'] and of kind dialog for ['D'] and
    ['d'], and the scan goes on right behind the [']']; for a token that has
    a link [parseLine] throws, the token keeping its link and the kind of
    that link, with [hasLink] flipped to false. *)
Theorem link_marker_without_trimming
    (config : configure.t) (c : console_state.t)
    (pre : string) (l : ascii) (content tail : string) (t u : Token.t)
    (Htrim : configure.trim_whitespaces_behind_markers config = false)
    (Hl : Parser.is_link_letter l = true)
    (Hno : forall k, String.get k content <> Some "]"%char)
    (Ht : Token.hasLink t = false) (Hu : Token.hasLink u = true) :
  Parser.parseLine config
    (pre +:+ String "$" (String l (String "[" (content +:+ String "]" tail))))
    (World c (Parser.mk (String.length pre) t))
  = Parser.parseLine config
      (pre +:+ String "$" (String l (String "[" (content +:+ String "]" tail))))
      (World c (Parser.mk (String.length pre + String.length content + 4)
                  (Token.mk (Token.text t) (Token.id t) content
                     (Ascii.eqb l "T" || Ascii.eqb l "t")
                     (Token.hasId t) true)))
  /\ Parser.parseLine config
       (pre +:+ String "$" (String l (String "[" (content +:+ String "]" tail))))
       (World c (Parser.mk (String.length pre) u))
     = (Throw ("found another link within token: " +:+ content),
        World c (Parser.mk (String.length pre + String.length content + 3)
                   (Token.mk (Token.text u) (Token.id u) (Token.link u)
                      (Token.isTreeLink u) (Token.hasId u) false))).
Proof.
  pose proof (link_line_length pre content l tail) as Hlen.
  split.
  - apply parseLine_after_body.
    rewrite (first_link_marker_sets config _ c _ t l content c _
               (link_line_dollar _ _ _ _) (link_line_letter _ _ _ _) Hl
               (link_line_bracket _ _ _ _) Ht
               (link_line_value_no_trim config c pre content l Hno tail t Htrim)).
    destruct (Nat.ltb_spec (String.length pre + String.length content + 3)
                (String.length
                   (pre +:+ String "$"
                      (String l (String "[" (content +:+ String "]" tail))))));
      [|lia].
    do 3 f_equal. lia.
  - apply parseLine_after_throw; [simpl; lia|].
    apply (second_link_marker_throws config _ c _ u l);
      [apply link_line_dollar | apply link_line_letter | exact Hl
      | apply link_line_bracket | exact Hu |].
    by apply link_line_value_no_trim.
Qed.

Lemma link_marker_without_trimming_witness :
  Parser.parseLine Scenario.trim_off "go $t[west] now"
    (World console_state.initial (Parser.mk 3 (Token.mk "go " "" "" false false false)))
  = Parser.parseLine Scenario.trim_off "go $t[west] now"
      (World console_state.initial
         (Parser.mk 11 (Token.mk "go " "" "west" true false true)))
  /\ Parser.parseLine Scenario.trim_off "go $d[west] now"
       (World console_state.initial (Parser.mk 3 (Token.mk "go " "" "" false false false)))
     = Parser.parseLine Scenario.trim_off "go $d[west] now"
         (World console_state.initial
            (Parser.mk 11 (Token.mk "go " "" "west" false false true)))
  /\ Parser.parseLine Scenario.trim_off "go $d[west] now"
       (World console_state.initial (Parser.mk 3 (Token.mk "go " "" "east" true false true)))
     = (Throw "found another link within token: west",
        World console_state.initial
          (Parser.mk 10 (Token.mk "go " "" "east" true false false))).
Proof.
  assert (Hno : forall k, String.get k "west" <> Some "]"%char).
  { intros k. do 4 (destruct k as [|k]; [discriminate|]). discriminate. }
  destruct (link_marker_without_trimming Scenario.trim_off console_state.initial
              "go " "t" "west" " now" (Token.mk "go " "" "" false false false)
              (Token.mk "go " "" "east" true false true) eq_refl eq_refl Hno eq_refl eq_refl)
    as (A & _).
  destruct (link_marker_without_trimming Scenario.trim_off console_state.initial
              "go " "d" "west" " now" (Token.mk "go " "" "" false false false)
              (Token.mk "go " "" "east" true false true) eq_refl eq_refl Hno eq_refl eq_refl)
    as (B & C).
  split; [exact A|]. split; [exact B | exact C].
Defined.

(** A link marker, trimming enabled: as for an id marker, the scan goes on
    behind the first character [ch] that follows the spaces behind the
    marker, [ch] never reaching the text; and a marker (with its spaces)
    closing the line is stored before the iterator is advanced past
    [line.end()]. *)
Theorem link_marker_with_trimming
    (config : configure.t) (c : console_state.t)
    (pre : string) (l : ascii) (content sp : string) (ch : ascii) (rest : string)
    (t u : Token.t)
    (Htrim : configure.trim_whitespaces_behind_markers config = true)
    (Hl : Parser.is_link_letter l = true)
    (Hno : forall k, String.get k content <> Some "]"%char)
    (Hsp : forall k s, String.get k sp = Some s -> s = " "%char)
    (Hch : ch <> " "%char)
    (Ht : Token.hasLink t = false) (Hu : Token.hasLink u = true) :
  Parser.parseLine config
    (pre +:+ String "$"
       (String l (String "[" (content +:+ String "]" (sp +:+ String ch rest)))))
    (World c (Parser.mk (String.length pre) t))
  = Parser.parseLine config
      (pre +:+ String "$"
         (String l (String "[" (content +:+ String "]" (sp +:+ String ch rest)))))
      (World c (Parser.mk (String.length pre + String.length content + String.length sp + 5)
                  (Token.mk (Token.text t) (Token.id t) content
                     (Ascii.eqb l "T" || Ascii.eqb l "t")
                     (Token.hasId t) true)))
  /\ Parser.parseLine config
       (pre +:+ String "$"
          (String l (String "[" (content +:+ String "]" (sp +:+ String ch rest)))))
       (World c (Parser.mk (String.length pre) u))
     = (Throw ("found another link within token: " +:+ content),
        World c (Parser.mk (String.length pre + String.length content + String.length sp + 4)
                   (Token.mk (Token.text u) (Token.id u) (Token.link u)
                      (Token.isTreeLink u) (Token.hasId u) false)))
  /\ Parser.parseLine config
       (pre +:+ String "$" (String l (String "[" (content +:+ String "]" (sp +:+ "")))))
       (World c (Parser.mk (String.length pre) t))
     = (Undefined AdvancePastEnd,
        World c (Parser.mk (String.length pre + String.length content + String.length sp + 4)
                   (Token.mk (Token.text t) (Token.id t) content
                      (Ascii.eqb l "T" || Ascii.eqb l "t")
                      (Token.hasId t) true))).
Proof.
  assert (Hrest : String.get 0 (String ch rest) <> Some " "%char)
    by (simpl; congruence).
  assert (Hnil : String.get 0 "" <> Some " "%char) by discriminate.
  pose proof (link_line_length pre content l (sp +:+ String ch rest)) as Hlen.
  pose proof (link_line_length pre content l (sp +:+ "")) as Hlen'.
  rewrite string_app_length in Hlen, Hlen'. simpl in Hlen, Hlen'.
  split; [|split].
  - apply parseLine_after_body.
    rewrite (first_link_marker_sets config _ c _ t l content c _
               (link_line_dollar _ _ _ _) (link_line_letter _ _ _ _) Hl
               (link_line_bracket _ _ _ _) Ht
               (link_line_value_trim config c pre content l Hno sp _ t Htrim Hsp Hrest)).
    destruct (Nat.ltb_spec
                (String.length pre + String.length content + String.length sp + 4)
                (String.length
                   (pre +:+ String "$"
                      (String l
                         (String "[" (content +:+ String "]" (sp +:+ String ch rest)))))));
      [|lia].
    do 3 f_equal. lia.
  - apply parseLine_after_throw; [simpl; lia|].
    apply (second_link_marker_throws config _ c _ u l);
      [apply link_line_dollar | apply link_line_letter | exact Hl
      | apply link_line_bracket | exact Hu |].
    by apply link_line_value_trim.
  - apply parseLine_after_undefined; [simpl; lia|].
    rewrite (first_link_marker_sets config _ c _ t l content c _
               (link_line_dollar _ _ _ _) (link_line_letter _ _ _ _) Hl
               (link_line_bracket _ _ _ _) Ht
               (link_line_value_trim config c pre content l Hno sp _ t Htrim Hsp Hnil)).
    destruct (Nat.ltb_spec
                (String.length pre + String.length content + String.length sp + 4)
                (String.length
                   (pre +:+ String "$"
                      (String l (String "[" (content +:+ String "]" (sp +:+ "")))))));
      [lia|done].
Qed.

Lemma link_marker_with_trimming_witness :
  Parser.parseLine Scenario.trim_on "go $T[west] now"
    (World console_state.initial (Parser.mk 3 (Token.mk "go " "" "" false false false)))
  = Parser.parseLine Scenario.trim_on "go $T[west] now"
      (World console_state.initial
         (Parser.mk 13 (Token.mk "go " "" "west" true false true)))
  /\ Parser.parseLine Scenario.trim_on "go $T[west] "
       (World console_state.initial (Parser.mk 3 (Token.mk "go " "" "" false false false)))
     = (Undefined AdvancePastEnd,
        World console_state.initial
          (Parser.mk 12 (Token.mk "go " "" "west" true false true))).
Proof.
  assert (Hno : forall k, String.get k "west" <> Some "]"%char).
  { intros k. do 4 (destruct k as [|k]; [discriminate|]). discriminate. }
  assert (Hsp : forall k s, String.get k " " = Some s -> s = " "%char).
  { intros k s. destruct k as [|k]; [by intros [= <-]|]. discriminate. }
  assert (Hch : "n"%char <> " "%char) by discriminate.
  destruct (link_marker_with_trimming Scenario.trim_on console_state.initial
              "go " "T" "west" " " "n" "ow" (Token.mk "go " "" "" false false false)
              (Token.mk "go " "" "east" true false true)
              eq_refl eq_refl Hno Hsp Hch eq_refl eq_refl)
    as (A & _ & B).
  split; [exact A | exact B].
Defined.

Lemma plain_text_until config c mid :
  forall pre rest t,
    (forall k, String.get k mid <> Some "$"%char) ->
    Parser.parseLine config (pre +:+ mid +:+ rest)
      (World c (Parser.mk (String.length pre) t))
    = Parser.parseLine config (pre +:+ mid +:+ rest)
        (World c (Parser.mk (String.length (pre +:+ mid))
                    (Token.mk (Token.text t +:+ mid) (Token.id t) (Token.link t)
                       (Token.isTreeLink t) (Token.hasId t) (Token.hasLink t)))).
Proof.
  induction mid as [|ch mid IH]; intros pre rest t Hno.
  - rewrite !string_app_nil_r. by destruct t.
  - assert (Hch : ch <> "$"%char) by (intros ->; by apply (Hno 0%nat)).
    change (String ch mid +:+ rest) with (String ch (mid +:+ rest)).
    assert (Hget : String.get (String.length pre) (pre +:+ String ch (mid +:+ rest))
                   = Some ch) by (by rewrite get_app_r0).
    rewrite (parseLine_after_body _ _ _ _
               (parseLine_body_plain_char config c _ _ t _ Hget Hch)).
    rewrite (shift_char pre ch (mid +:+ rest)), <- (length_shift pre ch).
    rewrite IH by (intros k; apply (Hno (S k))).
    simpl. by rewrite !string_app_assoc.
Qed.

(** A whole line with one id marker between two stretches of text free of
    ['$'], scanned from its first character into a token without id. With
    trimming disabled the token's text grows by the two stretches and its id
    is the marker's content. With trimming enabled, and the second stretch
    beginning with spaces [sp] followed by a character [ch], the text grows
    by the first stretch and by what follows [ch]: neither the spaces nor
    [ch] reach it. *)
Theorem line_with_one_id_marker
    (off on : configure.t) (c : console_state.t)
    (text1 content text2 sp : string) (ch : ascii) (t : Token.t)
    (Hoff : configure.trim_whitespaces_behind_markers off = false)
    (Hon : configure.trim_whitespaces_behind_markers on = true)
    (H1 : forall k, String.get k text1 <> Some "$"%char)
    (H2 : forall k, String.get k text2 <> Some "$"%char)
    (Hno : forall k, String.get k content <> Some "]"%char)
    (Hsp : forall k s, String.get k sp = Some s -> s = " "%char)
    (Hch : ch <> " "%char)
    (Ht : Token.hasId t = false) :
  Parser.parseLine off
    (text1 +:+ String "$" (String "[" (content +:+ String "]" text2)))
    (World c (Parser.mk 0 t))
  = (Ret (Token.mk (Token.text t +:+ text1 +:+ text2) content (Token.link t)
            (Token.isTreeLink t) true (Token.hasLink t)),
     World c (Parser.mk
                (String.length
                   (text1 +:+ String "$" (String "[" (content +:+ String "]" text2))))
                (Token.mk (Token.text t +:+ text1 +:+ text2) content (Token.link t)
                   (Token.isTreeLink t) true (Token.hasLink t))))
  /\ Parser.parseLine on
       (text1 +:+ String "$"
          (String "[" (content +:+ String "]" (sp +:+ String ch text2))))
       (World c (Parser.mk 0 t))
     = (Ret (Token.mk (Token.text t +:+ text1 +:+ text2) content (Token.link t)
               (Token.isTreeLink t) true (Token.hasLink t)),
        World c (Parser.mk
                   (String.length
                      (text1 +:+ String "$"
                         (String "[" (content +:+ String "]" (sp +:+ String ch text2)))))
                   (Token.mk (Token.text t +:+ text1 +:+ text2) content (Token.link t)
                      (Token.isTreeLink t) true (Token.hasLink t)))).
Proof.
  split.
  - pose proof (plain_text_until off c text1 ""
                  (String "$" (String "[" (content +:+ String "]" text2))) t H1) as E.
    change (String.length "") with 0%nat in E.
    change ("" +:+ text1 +:+ String "$" (String "[" (content +:+ String "]" text2)))
      with (text1 +:+ String "$" (String "[" (content +:+ String "]" text2))) in E.
    change ("" +:+ text1) with text1 in E.
    rewrite E. clear E.
    rewrite (id_marker_stored_no_trim off c text1 content text2
               (Token.mk (Token.text t +:+ text1) (Token.id t) (Token.link t)
                  (Token.isTreeLink t) (Token.hasId t) (Token.hasLink t))
               Hoff Hno Ht).
    set (pre' := text1 +:+ String "$" (String "[" (content +:+ String "]" ""))).
    assert (Hline : text1 +:+ String "$" (String "[" (content +:+ String "]" text2))
                    = pre' +:+ text2).
    { unfold pre'. rewrite string_app_assoc.
      change ((String "$" (String "[" (content +:+ String "]" ""))) +:+ text2)
        with (String "$" (String "[" ((content +:+ String "]" "") +:+ text2))).
      by rewrite string_app_assoc. }
    assert (Hpos : (String.length text1 + String.length content + 3)%nat
                   = String.length pre').
    { unfold pre'. rewrite length_app_cons. simpl. rewrite string_app_length. simpl. lia. }
    rewrite Hline, Hpos.
    rewrite plain_text_from by exact H2. simpl. by rewrite !string_app_assoc.
  - pose proof (plain_text_until on c text1 ""
                  (String "$" (String "[" (content +:+ String "]" (sp +:+ String ch text2))))
                  t H1) as E.
    change (String.length "") with 0%nat in E.
    change ("" +:+ text1 +:+ String "$"
              (String "[" (content +:+ String "]" (sp +:+ String ch text2))))
      with (text1 +:+ String "$"
              (String "[" (content +:+ String "]" (sp +:+ String ch text2)))) in E.
    change ("" +:+ text1) with text1 in E.
    rewrite E. clear E.
    rewrite (id_marker_stored_trim on c text1 content sp ch text2
               (Token.mk (Token.text t +:+ text1) (Token.id t) (Token.link t)
                  (Token.isTreeLink t) (Token.hasId t) (Token.hasLink t))
               Hon Hno Hsp Hch Ht).
    set (pre' := text1 +:+ String "$"
                   (String "[" (content +:+ String "]" (sp +:+ String ch "")))).
    assert (Hline : text1 +:+ String "$"
                      (String "[" (content +:+ String "]" (sp +:+ String ch text2)))
                    = pre' +:+ text2).
    { unfold pre'. rewrite string_app_assoc.
      change ((String "$" (String "[" (content +:+ String "]" (sp +:+ String ch "")))) +:+ text2)
        with (String "$" (String "[" ((content +:+ String "]" (sp +:+ String ch "")) +:+ text2))).
      rewrite string_app_assoc.
      change (String "]" (sp +:+ String ch "") +:+ text2)
        with (String "]" ((sp +:+ String ch "") +:+ text2)).
      by rewrite string_app_assoc. }
    assert (Hpos : (String.length text1 + String.length content + String.length sp + 4)%nat
                   = String.length pre').
    { unfold pre'. rewrite length_app_cons. simpl. rewrite !string_app_length. simpl.
      rewrite string_app_length. simpl. lia. }
    rewrite Hline, Hpos.
    rewrite plain_text_from by exact H2. simpl. by rewrite !string_app_assoc.
Qed.

Lemma line_with_one_id_marker_witness :
  fst (Parser.scan Scenario.trim_off "say $[a]hi")
  = Ret (Token.mk "say hi" "a" "" false true false)
  /\ fst (Parser.scan Scenario.trim_on "say $[a]  Xhi")
     = Ret (Token.mk "say hi" "a" "" false true false).
Proof.
  assert (H1 : forall k, String.get k "say " <> Some "$"%char).
  { intros k. do 4 (destruct k as [|k]; [discriminate|]). discriminate. }
  assert (H2 : forall k, String.get k "hi" <> Some "$"%char).
  { intros k. do 2 (destruct k as [|k]; [discriminate|]). discriminate. }
  assert (Hno : forall k, String.get k "a" <> Some "]"%char).
  { intros k. destruct k as [|k]; [discriminate|]. discriminate. }
  assert (Hsp : forall k s, String.get k "  " = Some s -> s = " "%char).
  { intros k s. do 2 (destruct k as [|k]; [by intros [= <-]|]). discriminate. }
  assert (Hch : "X"%char <> " "%char) by discriminate.
  destruct (line_with_one_id_marker Scenario.trim_off Scenario.trim_on
              console_state.initial "say " "a" "hi" "  " "X" Token.fresh
              eq_refl eq_refl H1 H2 Hno Hsp Hch eq_refl) as (A & B).
  split; [exact (f_equal fst A) | exact (f_equal fst B)].
Defined.

(** A rejected marker reopens the token. With trimming disabled: after
    [parseLine] has thrown on a second id marker, the token still holds its
    first id but its flag [hasId] is false, so the next id marker scanned
    into this token is accepted and replaces the id. *)
Theorem rejected_id_marker_reopens_the_token
    (config : configure.t) (c : console_state.t)
    (pre second tail pre' third tail' : string) (u : Token.t)
    (Htrim : configure.trim_whitespaces_behind_markers config = false)
    (Hno : forall k, String.get k second <> Some "]"%char)
    (Hno' : forall k, String.get k third <> Some "]"%char)
    (Hu : Token.hasId u = true) :
  exists u',
    snd (Parser.parseLine config
           (pre +:+ String "$" (String "[" (second +:+ String "]" tail)))
           (World c (Parser.mk (String.length pre) u)))
    = World c (Parser.mk (String.length pre + String.length second + 2) u')
    /\ fst (Parser.parseLine config
              (pre +:+ String "$" (String "[" (second +:+ String "]" tail)))
              (World c (Parser.mk (String.length pre) u)))
       = Throw ("found another id within token: " +:+ second)
    /\ Token.id u' = Token.id u /\ Token.hasId u' = false
    /\ Parser.parseLine config
         (pre' +:+ String "$" (String "[" (third +:+ String "]" tail')))
         (World c (Parser.mk (String.length pre') u'))
       = Parser.parseLine config
           (pre' +:+ String "$" (String "[" (third +:+ String "]" tail')))
           (World c (Parser.mk (String.length pre' + String.length third + 3)
                       (Token.mk (Token.text u) third (Token.link u) (Token.isTreeLink u)
                          true (Token.hasLink u)))).
Proof.
  eexists.
  rewrite (id_marker_rejected_no_trim config c pre second tail u Htrim Hno Hu).
  simpl. repeat split.
  exact (id_marker_stored_no_trim config c pre' third tail'
           (Token.mk (Token.text u) (Token.id u) (Token.link u)
              (Token.isTreeLink u) false (Token.hasLink u))
           Htrim Hno' eq_refl).
Qed.

Lemma rejected_id_marker_reopens_the_token_witness :
  exists u',
    Parser.parseLine Scenario.trim_off "$[b]"
      (World console_state.initial (Parser.mk 0 (Token.mk "" "a" "" false true false)))
    = (Throw "found another id within token: b", World console_state.initial (Parser.mk 3 u'))
    /\ Token.id u' = "a"
    /\ fst (Parser.parseLine Scenario.trim_off "$[c]"
              (World console_state.initial (Parser.mk 0 u')))
       = Ret (Token.mk "" "c" "" false true false).
Proof.
  assert (Hb : forall k, String.get k "b" <> Some "]"%char).
  { intros k. destruct k as [|k]; [discriminate|]. discriminate. }
  assert (Hc : forall k, String.get k "c" <> Some "]"%char).
  { intros k. destruct k as [|k]; [discriminate|]. discriminate. }
  destruct (rejected_id_marker_reopens_the_token Scenario.trim_off console_state.initial
              "" "b" "" "" "c" "" (Token.mk "" "a" "" false true false)
              eq_refl Hb Hc eq_refl) as (u' & A & B & C & D & E).
  exists u'. split; [|split].
  - refine (injective_projections _ _ _ _); [exact B | exact A].
  - exact C.
  - refine (eq_trans (f_equal fst E) _). vm_compute. reflexivity.
Defined.

(** *** What a scan never does *)

Lemma extends_refl w : extends w w.
Proof. repeat split; [lia|]. exists "". by rewrite string_app_nil_r. Qed.

Lemma extends_trans w1 w2 w3 : extends w1 w2 -> extends w2 w3 -> extends w1 w3.
Proof.
  intros (C1 & I1 & s1 & T1) (C2 & I2 & s2 & T2). repeat split.
  - congruence.
  - lia.
  - exists (s1 +:+ s2). by rewrite T2, T1, string_app_assoc.
Qed.

Lemma extending_ret {A : Type} (a : A) : extending (ret a).
Proof. intros w. apply extends_refl. Qed.

Lemma extending_bind {A B : Type} (m : M Parser.state A) (k : A -> M Parser.state B) :
  extending m -> (forall a, extending (k a)) -> extending (bind m k).
Proof.
  intros Hm Hk w. unfold bind. specialize (Hm w).
  destruct (m w) as [[a|e|u|] w1]; simpl in *; try exact Hm.
  eapply extends_trans; [exact Hm|apply Hk].
Qed.

Lemma extending_if {A : Type} (b : bool) (m1 m2 : M Parser.state A) :
  extending m1 -> extending m2 -> extending (if b then m1 else m2).
Proof. by destruct b. Qed.

Lemma extending_log_error msg args : extending (console.log 1 msg args).
Proof. intros w; apply extends_refl. Qed.

Lemma extending_advance line : extending (Parser.advance line).
Proof.
  intros w. unfold Parser.advance.
  destruct (Parser.it (obj w) <? String.length line)%nat; simpl; [|apply extends_refl].
  repeat split; simpl; [lia|]. exists "". by rewrite string_app_nil_r.
Qed.

Lemma extending_at_end line : extending (Parser.at_end line).
Proof. intros w. apply extends_refl. Qed.

Lemma extending_deref line : extending (Parser.deref line).
Proof.
  intros w. unfold Parser.deref.
  destruct (String.get (Parser.it (obj w)) line); apply extends_refl.
Qed.

Lemma extending_modify_curr (f : Token.t -> Token.t) :
  (forall t, exists s, Token.text (f t) = Token.text t +:+ s) ->
  extending (Parser.modify_curr f).
Proof.
  intros Hf w. repeat split; simpl; [lia|]. apply Hf.
Qed.

Lemma same_text t : exists s, Token.text t = Token.text t +:+ s.
Proof. exists "". by rewrite string_app_nil_r. Qed.

Lemma extending_flips : extending Parser.flip_hasId /\ extending Parser.flip_hasLink.
Proof.
  split; intros w; (repeat split; simpl; [lia|]); apply same_text.
Qed.

Lemma extending_marker_loop line fuel : forall marker,
  extending (Parser.marker_loop line fuel marker).
Proof.
  induction fuel as [|fuel IH]; intros marker; [intros w; apply extends_refl|].
  cbn [Parser.marker_loop].
  apply extending_bind; [apply extending_advance|intros _].
  apply extending_bind; [apply extending_at_end|intros e].
  apply extending_if; [apply extending_ret|].
  apply extending_bind; [apply extending_deref|intros ch].
  apply extending_if; [apply extending_ret|apply IH].
Qed.

Lemma extending_trim_loop line fuel : extending (Parser.trim_loop line fuel).
Proof.
  induction fuel as [|fuel IH]; [intros w; apply extends_refl|].
  cbn [Parser.trim_loop].
  apply extending_bind; [apply extending_advance|intros _].
  apply extending_bind; [apply extending_at_end|intros e].
  apply extending_if; [apply extending_ret|].
  apply extending_bind; [apply extending_deref|intros ch].
  apply extending_if; [apply IH|apply extending_ret].
Qed.

Lemma extending_parseMarkerValue config line :
  extending (Parser.parseMarkerValue config line).
Proof.
  unfold Parser.parseMarkerValue.
  apply extending_bind; [apply extending_marker_loop|intros marker].
  apply extending_bind; [|intros _; apply extending_ret].
  apply extending_if; [apply extending_trim_loop|apply extending_ret].
Qed.

Lemma extending_parseLine_body config line :
  extending (Parser.parseLine_body config line).
Proof.
  unfold Parser.parseLine_body.
  apply extending_bind; [apply extending_deref|intros ch].
  apply extending_bind; [|intros _; apply extending_advance].
  apply extending_if.
  2: { apply extending_modify_curr. intros t. simpl. by eexists. }
  apply extending_bind; [apply extending_advance|intros _].
  apply extending_bind; [apply extending_deref|intros c1].
  apply extending_if; [|apply extending_if].
  - apply extending_bind; [apply extending_parseMarkerValue|intros v].
    apply extending_bind; [apply extending_flips|intros b].
    apply extending_if; [|apply extending_log_error].
    apply extending_modify_curr. intros t. simpl. apply same_text.
  - apply extending_bind; [apply extending_advance|intros _].
    apply extending_bind; [apply extending_deref|intros c2].
    apply extending_if.
    2: { apply extending_modify_curr. intros t. simpl. by eexists. }
    apply extending_bind; [apply extending_parseMarkerValue|intros v].
    apply extending_bind; [apply extending_flips|intros b].
    apply extending_bind.
    + apply extending_if; [|apply extending_log_error].
      apply extending_modify_curr. intros t. simpl. apply same_text.
    + intros _. apply extending_if; apply extending_modify_curr; intros t; simpl; apply same_text.
  - apply extending_modify_curr. intros t. simpl. by eexists.
Qed.

Lemma extending_parseLine_loop config line fuel :
  extending (Parser.parseLine_loop config line fuel).
Proof.
  induction fuel as [|fuel IH]; [intros w; apply extends_refl|].
  cbn [Parser.parseLine_loop].
  apply extending_bind; [apply extending_at_end|intros e].
  apply extending_if; [apply extending_ret|].
  apply extending_bind; [apply extending_parseLine_body|intros _; apply IH].
Qed.

Lemma keeps_curr_bind {A B : Type} (m : M Parser.state A) (k : A -> M Parser.state B) :
  (forall w, Parser.curr (obj (snd (m w))) = Parser.curr (obj w)) ->
  (forall a w, Parser.curr (obj (snd (k a w))) = Parser.curr (obj w)) ->
  forall w, Parser.curr (obj (snd (bind m k w))) = Parser.curr (obj w).
Proof.
  intros Hm Hk w. unfold bind. specialize (Hm w).
  destruct (m w) as [[a|e|u|] w1]; simpl in *; try exact Hm.
  by rewrite Hk.
Qed.

Lemma keeps_curr_advance line w :
  Parser.curr (obj (snd (Parser.advance line w))) = Parser.curr (obj w).
Proof.
  unfold Parser.advance. by destruct (Parser.it (obj w) <? String.length line)%nat.
Qed.

Lemma keeps_curr_deref line w :
  Parser.curr (obj (snd (Parser.deref line w))) = Parser.curr (obj w).
Proof. unfold Parser.deref. by destruct (String.get (Parser.it (obj w)) line). Qed.

Lemma keeps_curr_marker_loop line fuel : forall marker w,
  Parser.curr (obj (snd (Parser.marker_loop line fuel marker w))) = Parser.curr (obj w).
Proof.
  induction fuel as [|fuel IH]; intros marker; [done|].
  cbn [Parser.marker_loop].
  apply keeps_curr_bind; [apply keeps_curr_advance|intros _].
  apply keeps_curr_bind; [done|intros e].
  destruct e; [done|].
  apply keeps_curr_bind; [apply keeps_curr_deref|intros ch].
  destruct (Ascii.eqb ch "]"); [done|apply IH].
Qed.

Lemma keeps_curr_trim_loop line fuel : forall w,
  Parser.curr (obj (snd (Parser.trim_loop line fuel w))) = Parser.curr (obj w).
Proof.
  induction fuel as [|fuel IH]; [done|].
  cbn [Parser.trim_loop].
  apply keeps_curr_bind; [apply keeps_curr_advance|intros _].
  apply keeps_curr_bind; [done|intros e].
  destruct e; [done|].
  apply keeps_curr_bind; [apply keeps_curr_deref|intros ch].
  destruct (Ascii.eqb ch " "); [apply IH|done].
Qed.

(** Whatever the line, the configuration and the outcome (return, exception
    or undefined behaviour), a call of [parseLine] or of [parseMarkerValue]
    leaves the console as it was (nothing is written, level and indentation
    stay), never moves the iterator to the left, and only ever appends to the
    text the token held at the call; [parseMarkerValue] does not touch the
    token at all. *)
Theorem scan_only_extends
    (config : configure.t) (line : string) (w : world Parser.state) :
  extends w (snd (Parser.parseLine config line w))
  /\ extends w (snd (Parser.parseMarkerValue config line w))
  /\ Parser.curr (obj (snd (Parser.parseMarkerValue config line w))) = Parser.curr (obj w).
Proof.
  split; [|split].
  - unfold Parser.parseLine.
    apply extending_bind; [apply extending_parseLine_loop|intros _].
    intros w1. apply extends_refl.
  - apply extending_parseMarkerValue.
  - unfold Parser.parseMarkerValue.
    apply keeps_curr_bind; [apply keeps_curr_marker_loop|intros marker].
    apply keeps_curr_bind; [|done].
    destruct (configure.trim_whitespaces_behind_markers config);
      [apply keeps_curr_trim_loop|done].
Qed.

(** * Member calls through two lookups *)

(** [tree.dialog(i).decision(j).m(...)]: when [i] is a Dialog of the Tree
    and [j] a Decision of that Dialog, each of the four setters called
    through the two references returns normally and changes that stored
    Decision in place: reading it back through the same two lookups returns
    the Decision with exactly the member the setter names replaced by the
    argument and every other member, the id included, as before; the read
    itself changes nothing, and every other Dialog of the Tree and every
    other Decision of the Dialog is what it was. *)
Theorem setter_through_two_lookups
    (c : console_state.t) (t : Tree.t) (i j : string) (d : Dialog.t) (dec : Decision.t)
    (o : Decision.op)
    (Hi : Tree.dialogs_ t !! i = Some d)
    (Hj : Dialog.decisions_ d !! j = Some dec) :
  exists t',
    Tree.on_dialog i (Dialog.on_decision j (Decision.run o)) (World c t)
    = (Ret tt, World c t')
    /\ Tree.on_dialog i (Dialog.decision j) (World c t')
       = (Ret match o with
              | Decision.Message m =>
                  Decision.mk (Decision.id_ dec) m (Decision.link_ dec)
                    (Decision.enabled_ dec) (Decision.score_ dec)
              | Decision.Link l =>
                  Decision.mk (Decision.id_ dec) (Decision.message_ dec) l
                    (Decision.enabled_ dec) (Decision.score_ dec)
              | Decision.Enabled e =>
                  Decision.mk (Decision.id_ dec) (Decision.message_ dec)
                    (Decision.link_ dec) e (Decision.score_ dec)
              | Decision.Score s =>
                  Decision.mk (Decision.id_ dec) (Decision.message_ dec)
                    (Decision.link_ dec) (Decision.enabled_ dec) s
              end,
          World c t')
    /\ (forall k, k <> i -> Tree.dialogs_ t' !! k = Tree.dialogs_ t !! k)
    /\ (forall d', Tree.dialogs_ t' !! i = Some d' ->
          Dialog.id_ d' = Dialog.id_ d /\ Dialog.message_ d' = Dialog.message_ d
          /\ Dialog.link_ d' = Dialog.link_ d
          /\ forall k, k <> j -> Dialog.decisions_ d' !! k = Dialog.decisions_ d !! k)
    /\ Tree.root_ t' = Tree.root_ t /\ Tree.score_ t' = Tree.score_ t.
Proof.
  set (dec' := match o with
               | Decision.Message m =>
                   Decision.mk (Decision.id_ dec) m (Decision.link_ dec)
                     (Decision.enabled_ dec) (Decision.score_ dec)
               | Decision.Link l =>
                   Decision.mk (Decision.id_ dec) (Decision.message_ dec) l
                     (Decision.enabled_ dec) (Decision.score_ dec)
               | Decision.Enabled e =>
                   Decision.mk (Decision.id_ dec) (Decision.message_ dec)
                     (Decision.link_ dec) e (Decision.score_ dec)
               | Decision.Score s =>
                   Decision.mk (Decision.id_ dec) (Decision.message_ dec)
                     (Decision.link_ dec) (Decision.enabled_ dec) s
               end).
  assert (Hrun : Decision.run o (World c dec) = (Ret tt, World c dec'))
    by (by destruct o).
  set (d1 := Dialog.with_decisions (<[j := dec']> (Dialog.decisions_ d)) d).
  exists (Tree.with_dialogs (<[i := d1]> (Tree.dialogs_ t)) t).
  assert (Hd1 : Dialog.on_decision j (Decision.run o) (World c d) = (Ret tt, World c d1)).
  { rewrite (on_decision_present _ _ _ _ _ Hj). by rewrite Hrun. }
  split; [|split; [|split; [|split]]].
  - rewrite (on_dialog_present _ _ _ _ _ Hi). by rewrite Hd1.
  - assert (Hi' : Tree.dialogs_ (Tree.with_dialogs (<[i := d1]> (Tree.dialogs_ t)) t) !! i
                  = Some d1) by (simpl; by rewrite lookup_insert_eq).
    rewrite (on_dialog_present _ _ _ _ _ Hi').
    assert (Hj' : Dialog.decisions_ d1 !! j = Some dec')
      by (simpl; by rewrite lookup_insert_eq).
    rewrite (decision_present _ _ _ _ Hj'). simpl.
    by rewrite insert_insert_eq.
  - intros k Hk. simpl. by rewrite lookup_insert_ne.
  - intros d'. simpl. rewrite lookup_insert_eq. intros [= <-]. simpl.
    repeat split. intros k Hk. by rewrite lookup_insert_ne.
  - done.
Qed.

Lemma setter_through_two_lookups_witness :
  (exists t',
     Tree.on_dialog "D1" (Dialog.on_decision "c1" (Decision.set_link "D9"))
       (World console_state.initial Scenario.grown_tree)
     = (Ret tt, World console_state.initial t')
     /\ Tree.on_dialog "D1" (Dialog.decision "c1") (World console_state.initial t')
        = (Ret (Decision.mk "c1" "go left" "D9" true 7), World console_state.initial t'))
  /\ (exists t',
        Tree.on_dialog "D1" (Dialog.on_decision "c1" (Decision.set_enabled false))
          (World console_state.initial Scenario.grown_tree)
        = (Ret tt, World console_state.initial t')
        /\ Tree.on_dialog "D1" (Dialog.decision "c1") (World console_state.initial t')
           = (Ret (Decision.mk "c1" "go left" "D2" false 7), World console_state.initial t'))
  /\ (exists t',
        Tree.on_dialog "D1" (Dialog.on_decision "c1" (Decision.set_message "go on"))
          (World console_state.initial Scenario.grown_tree)
        = (Ret tt, World console_state.initial t')
        /\ Tree.on_dialog "D1" (Dialog.decision "c1") (World console_state.initial t')
           = (Ret (Decision.mk "c1" "go on" "D2" true 7), World console_state.initial t')).
Proof.
  assert (Hi : Tree.dialogs_ Scenario.grown_tree !! "D1"
               = Some (Dialog.mk {["c1" := Decision.mk "c1" "go left" "D2" true 7]}
                         "D1" "first" "")) by (vm_compute; reflexivity).
  assert (Hj : Dialog.decisions_
                 (Dialog.mk {["c1" := Decision.mk "c1" "go left" "D2" true 7]}
                    "D1" "first" "") !! "c1"
               = Some (Decision.mk "c1" "go left" "D2" true 7)) by (vm_compute; reflexivity).
  split; [|split].
  - destruct (setter_through_two_lookups console_state.initial Scenario.grown_tree
                "D1" "c1" _ _ (Decision.Link "D9") Hi Hj) as (t' & A & B & _).
    exists t'. split; [exact A | exact B].
  - destruct (setter_through_two_lookups console_state.initial Scenario.grown_tree
                "D1" "c1" _ _ (Decision.Enabled false) Hi Hj) as (t' & A & B & _).
    exists t'. split; [exact A | exact B].
  - destruct (setter_through_two_lookups console_state.initial Scenario.grown_tree
                "D1" "c1" _ _ (Decision.Message "go on") Hi Hj) as (t' & A & B & _).
    exists t'. split; [exact A | exact B].
Defined.
